(** * Gaussian utilities of the diffusion code ([diffusion/diffusion_utils.py])

    A shallow embedding of the four functions of [diffusion_utils.py]:
    [normal_kl], [approx_standard_normal_cdf],
    [continuous_gaussian_log_likelihood] and
    [discretized_gaussian_log_likelihood].

    Tensors are contiguous row-major arrays: a shape and a flat list of
    elements.  Elementwise operators broadcast their operands the way torch
    does (shapes aligned on their trailing dimensions, a dimension of size 1
    read at index 0).  Scalars are real numbers: the embedding describes the
    arithmetic of the formulas, not the rounding of a floating-point format.
    A tensor argument of [normal_kl] carries its element type, since a
    Python number forced to a tensor is cast to it.  A second embedding of
    [normal_kl] and of the discretized likelihood keeps the range of the
    floats (infinities and NaN) and shows where overflow departs from the
    real formulas.
    Failures are kept apart: [AssertionError] for a failed [assert],
    [RuntimeError] for operands that do not broadcast, [ValueError] for a
    sample a distribution rejects. *)

From Stdlib Require Import List Arith Bool Lia.
From Stdlib Require Import Reals Lra Psatz.
Import ListNotations.

(** ** Errors *)

Inductive error : Type :=
| AssertionError
| RuntimeError
| ValueError.

Inductive result (A : Type) : Type :=
| Ok (a : A)
| Err (e : error).

Arguments Ok {A} a.
Arguments Err {A} e.

Definition bind {A B : Type} (m : result A) (k : A -> result B) : result B :=
  match m with
  | Ok a => k a
  | Err e => Err e
  end.

Notation "x <- m ;; k" := (bind m (fun x => k))
  (at level 61, m at next level, right associativity).

(** ** Shapes, indices and broadcasting *)

Module Shape.

(** Number of elements of a tensor of shape [s]. *)
Definition numel (s : list nat) : nat := fold_right Nat.mul 1 s.

(** [in_range s i]: [i] is a multi-index into shape [s]. *)
Fixpoint in_range (s i : list nat) : bool :=
  match s, i with
  | [], [] => true
  | d :: s', k :: i' => (k <? d) && in_range s' i'
  | _, _ => false
  end.

(** Position of the element at multi-index [i] in row-major storage. *)
Fixpoint offset (s i : list nat) : nat :=
  match s, i with
  | _ :: s', k :: i' => k * numel s' + offset s' i'
  | _, _ => 0
  end.

(** All multi-indices of shape [s], in storage order. *)
Fixpoint indices (s : list nat) : list (list nat) :=
  match s with
  | [] => [[]]
  | d :: s' => flat_map (fun k => map (cons k) (indices s')) (seq 0 d)
  end.

(** Broadcasting aligns shapes on their last dimension, so the helpers
    below work on reversed shapes (last dimension first). *)

Fixpoint join_rev (a b : list nat) : option (list nat) :=
  match a, b with
  | [], _ => Some b
  | _, [] => Some a
  | d :: a', e :: b' =>
      match join_rev a' b' with
      | None => None
      | Some r =>
          if d =? e then Some (d :: r)
          else if d =? 1 then Some (e :: r)
          else if e =? 1 then Some (d :: r)
          else None
      end
  end.

(** The shape two operands broadcast to, or [None] when they do not. *)
Definition broadcast_shapes (a b : list nat) : option (list nat) :=
  option_map (@rev nat) (join_rev (rev a) (rev b)).

(** The broadcast shape of a list of operand shapes. *)
Fixpoint broadcast_all (l : list (list nat)) : option (list nat) :=
  match l with
  | [] => Some []
  | s :: l' =>
      match broadcast_all l' with
      | None => None
      | Some r => broadcast_shapes s r
      end
  end.

(** [fits_rev s u]: a tensor of (reversed) shape [s] expands to [u]. *)
Fixpoint fits_rev (s u : list nat) : bool :=
  match s, u with
  | [], _ => true
  | _ :: _, [] => false
  | d :: s', e :: u' => ((d =? e) || (d =? 1)) && fits_rev s' u'
  end.

Definition fits (s u : list nat) : bool := fits_rev (rev s) (rev u).

(** The index read in an operand of (reversed) shape [s] for the
    (reversed) result index [j]: leading result dimensions are dropped and
    a dimension of size 1 is read at 0. *)
Fixpoint bidx_rev (s j : list nat) : list nat :=
  match s, j with
  | d :: s', k :: j' => (if d =? 1 then 0 else k) :: bidx_rev s' j'
  | _, _ => []
  end.

Definition bidx (s j : list nat) : list nat := rev (bidx_rev (rev s) (rev j)).

(** The check of a sample against the shape of a distribution: walking
    both shapes from the last dimension, two sizes may differ only when one
    of them is 1. *)
Fixpoint compatible_rev (a b : list nat) : bool :=
  match a, b with
  | i :: a', j :: b' =>
      negb (negb (i =? 1) && negb (j =? 1) && negb (i =? j))
      && compatible_rev a' b'
  | _, _ => true
  end.

Definition compatible (a b : list nat) : bool :=
  compatible_rev (rev a) (rev b).

End Shape.

(** ** Tensors *)

Class Default (A : Type) : Type := dflt : A.

#[export] Instance Default_R : Default R := 0%R.
#[export] Instance Default_bool : Default bool := false.

Record Tensor (A : Type) : Type := mkTensor {
  shape : list nat;
  data : list A
}.

Arguments mkTensor {A} shape data.
Arguments shape {A} t.
Arguments data {A} t.

(** Element of [t] at multi-index [i]. *)
Definition get {A : Type} `{Default A} (t : Tensor A) (i : list nat) : A :=
  nth (Shape.offset (shape t) i) (data t) dflt.

(** Element of [t] read at index [j] of a shape [t] was expanded to. *)
Definition bget {A : Type} `{Default A} (t : Tensor A) (j : list nat) : A :=
  get t (Shape.bidx (shape t) j).

(** Unary elementwise operation; also a Python scalar applied to a tensor.
    The result is a fresh contiguous tensor of the same shape. *)
Definition tmap {A B : Type} `{Default A} (f : A -> B) (t : Tensor A)
  : Tensor B :=
  mkTensor (shape t) (map (fun i => f (get t i)) (Shape.indices (shape t))).

(** Binary elementwise operation with broadcasting. *)
Definition map2 {A B C : Type} `{Default A} `{Default B}
  (f : A -> B -> C) (a : Tensor A) (b : Tensor B) : result (Tensor C) :=
  match Shape.broadcast_shapes (shape a) (shape b) with
  | None => Err RuntimeError
  | Some s =>
      Ok (mkTensor s (map (fun i => f (bget a i) (bget b i)) (Shape.indices s)))
  end.

Open Scope R_scope.

(** ** The torch operations the file uses *)

Definition Rltb (x y : R) : bool := if Rlt_dec x y then true else false.

Definition th_exp (t : Tensor R) : Tensor R := tmap exp t.
Definition th_log (t : Tensor R) : Tensor R := tmap ln t.
Definition th_tanh (t : Tensor R) : Tensor R := tmap tanh t.
Definition th_pow (t : Tensor R) (n : nat) : Tensor R := tmap (fun v => v ^ n) t.
Definition neg (t : Tensor R) : Tensor R := tmap Ropp t.

(** [t.clamp(min=m)] *)
Definition clamp_min (t : Tensor R) (m : R) : Tensor R :=
  tmap (fun v => Rmax v m) t.

(** [t < c] and [t > c] for a Python scalar [c]. *)
Definition lt_scalar (t : Tensor R) (c : R) : Tensor bool :=
  tmap (fun v => Rltb v c) t.
Definition gt_scalar (t : Tensor R) (c : R) : Tensor bool :=
  tmap (fun v => Rltb c v) t.

(** [th.where(c, a, b)]: the three operands broadcast together. *)
Definition th_where (c : Tensor bool) (a b : Tensor R) : result (Tensor R) :=
  match Shape.broadcast_all [shape c; shape a; shape b] with
  | None => Err RuntimeError
  | Some s =>
      Ok (mkTensor s
            (map (fun i => if bget c i then bget a i else bget b i)
                 (Shape.indices s)))
  end.

(** [th.tensor(x)] for a Python number: a tensor with no dimension. *)
Definition th_tensor (x : R) : Tensor R := mkTensor [] [x].

(** The element types of the tensors: the default floating type, and the
    integer type of a tensor built from Python integers. *)
Inductive dtype : Type :=
| Float32
| Int64.

(** Conversion of a number to an integer type drops its fractional part. *)
Definition Rtrunc (r : R) : R :=
  if Rle_dec 0 r then IZR (Int_part r) else - IZR (Int_part (- r)).

(** [t.to(other)] moves [t] to the element type (and device) of [other]:
    towards a floating type the elements are kept, towards an integer type
    they are truncated. *)
Definition to (t : Tensor R) (other : dtype) : Tensor R :=
  match other with
  | Float32 => t
  | Int64 => tmap Rtrunc t
  end.

Definition zeros_like (t : Tensor R) : Tensor R := tmap (fun _ => 0) t.
Definition ones_like (t : Tensor R) : Tensor R := tmap (fun _ => 1) t.

(** [torch.distributions.Normal(loc, scale)] and its [log_prob], after the
    library.  [log_prob] first validates its argument and raises
    [ValueError] when the shape of the value does not match the shape of
    the distribution or when an element is outside the support; the
    support of a normal law is every real number, so over real scalars
    only the shape can fail.  Then it returns
    [-((value - loc) ** 2) / (2 * scale ** 2) - scale.log()
       - math.log(math.sqrt(2 * math.pi))]. *)
Record Normal : Type := mkNormal {
  loc : Tensor R;
  scale : Tensor R
}.

Definition validate_sample (d : Normal) (value : Tensor R) : result unit :=
  if Shape.compatible (shape value) (shape (loc d))
  then Ok tt
  else Err ValueError.

Definition log_prob (d : Normal) (value : Tensor R) : result (Tensor R) :=
  _ <- validate_sample d value ;;
  let var := th_pow (scale d) 2 in
  let log_scale := th_log (scale d) in
  c <- map2 Rminus value (loc d) ;;
  q <- map2 Rdiv (neg (th_pow c 2)) (tmap (fun v => 2 * v) var) ;;
  r <- map2 Rminus q log_scale ;;
  Ok (tmap (fun v => v - ln (sqrt (2 * PI))) r).

(** ** Arguments that are a Python number or a tensor *)

Inductive value : Type :=
| PyFloat (r : R)
| Tens (d : dtype) (t : Tensor R).

(** The element type of the result of an operation on two tensors. *)
Definition promote (d d' : dtype) : dtype :=
  match d, d' with
  | Int64, Int64 => Int64
  | _, _ => Float32
  end.

Definition vshape (v : value) : list nat :=
  match v with
  | PyFloat _ => []
  | Tens _ t => shape t
  end.

(** The number an argument contributes at index [j] of the result. *)
Definition vget (v : value) (j : list nat) : R :=
  match v with
  | PyFloat r => r
  | Tens _ t => bget t j
  end.

(** [a - b] *)
Definition vsub (a b : value) : result value :=
  match a, b with
  | PyFloat x, PyFloat y => Ok (PyFloat (x - y))
  | PyFloat x, Tens _ t => Ok (Tens Float32 (tmap (fun v => x - v) t))
  | Tens _ t, PyFloat y => Ok (Tens Float32 (tmap (fun v => v - y) t))
  | Tens d t, Tens d' u =>
      t' <- map2 Rminus t u ;; Ok (Tens (promote d d') t')
  end.

(** [a ** n] *)
Definition vpow (a : value) (n : nat) : value :=
  match a with
  | PyFloat x => PyFloat (x ^ n)
  | Tens d t => Tens d (th_pow t n)
  end.

(** [a * t] for a tensor [t] *)
Definition vmul (a : value) (t : Tensor R) : result (Tensor R) :=
  match a with
  | PyFloat x => Ok (tmap (fun v => x * v) t)
  | Tens _ u => map2 Rmult u t
  end.

(** ** [normal_kl] *)

(** [isinstance(obj, th.Tensor)] *)
Definition is_tensor (obj : value) : bool :=
  match obj with
  | Tens _ _ => true
  | PyFloat _ => false
  end.

(** The loop over the four arguments: the first one that is a tensor. *)
Fixpoint first_tensor (objs : list value) : option (dtype * Tensor R) :=
  match objs with
  | [] => None
  | Tens d t :: _ => Some (d, t)
  | PyFloat _ :: rest => first_tensor rest
  end.

(** [x if isinstance(x, th.Tensor) else th.tensor(x).to(tensor)] *)
Definition force_tensor (tensor : dtype * Tensor R) (x : value) : Tensor R :=
  match x with
  | Tens _ t => t
  | PyFloat r => to (th_tensor r) (fst tensor)
  end.

(** The number a log-variance contributes at index [j] once forced to a
    tensor of element type [d]: a Python number is cast, a tensor is read. *)
Definition forced_at (d : dtype) (x : value) (j : list nat) : R :=
  match x with
  | Tens _ t => bget t j
  | PyFloat r =>
      match d with
      | Float32 => r
      | Int64 => Rtrunc r
      end
  end.


Definition normal_kl (mean1 logvar1 mean2 logvar2 : value)
  : result (Tensor R) :=
  match first_tensor [mean1; logvar1; mean2; logvar2] with
  | None => Err AssertionError
  | Some tensor =>
      let logvar1 := force_tensor tensor logvar1 in
      let logvar2 := force_tensor tensor logvar2 in
      t1 <- map2 Rminus (tmap (fun v => -1 + v) logvar2) logvar1 ;;
      d <- map2 Rminus logvar1 logvar2 ;;
      t2 <- map2 Rplus t1 (th_exp d) ;;
      dm <- vsub mean1 mean2 ;;
      t3 <- vmul (vpow dm 2) (th_exp (neg logvar2)) ;;
      t4 <- map2 Rplus t2 t3 ;;
      Ok (tmap (fun v => 0.5 * v) t4)
  end.

(** ** [approx_standard_normal_cdf] *)

Definition approx_standard_normal_cdf (x : Tensor R) : result (Tensor R) :=
  inner <- map2 Rplus x (tmap (fun v => 0.044715 * v) (th_pow x 3)) ;;
  Ok (tmap (fun v => 0.5 * v)
        (tmap (fun v => 1 + v)
           (th_tanh (tmap (fun v => sqrt (2 / PI) * v) inner)))).

(** ** [continuous_gaussian_log_likelihood] *)

Definition continuous_gaussian_log_likelihood (x means log_scales : Tensor R)
  : result (Tensor R) :=
  centered_x <- map2 Rminus x means ;;
  let inv_stdv := th_exp (neg log_scales) in
  normalized_x <- map2 Rmult centered_x inv_stdv ;;
  log_probs <- log_prob (mkNormal (zeros_like x) (ones_like x)) normalized_x ;;
  Ok log_probs.

(** ** [discretized_gaussian_log_likelihood] *)

Definition shape_eqb (s u : list nat) : bool :=
  if list_eq_dec Nat.eq_dec s u then true else false.

Definition discretized_gaussian_log_likelihood (x means log_scales : Tensor R)
  : result (Tensor R) :=
  if shape_eqb (shape x) (shape means)
     && shape_eqb (shape means) (shape log_scales)
  then
    centered_x <- map2 Rminus x means ;;
    let inv_stdv := th_exp (neg log_scales) in
    plus_in <- map2 Rmult inv_stdv (tmap (fun v => v + 1 / 255) centered_x) ;;
    cdf_plus <- approx_standard_normal_cdf plus_in ;;
    min_in <- map2 Rmult inv_stdv (tmap (fun v => v - 1 / 255) centered_x) ;;
    cdf_min <- approx_standard_normal_cdf min_in ;;
    let log_cdf_plus := th_log (clamp_min cdf_plus 1e-12) in
    let log_one_minus_cdf_min :=
      th_log (clamp_min (tmap (fun v => 1 - v) cdf_min) 1e-12) in
    cdf_delta <- map2 Rminus cdf_plus cdf_min ;;
    inner <- th_where (gt_scalar x 0.999) log_one_minus_cdf_min
               (th_log (clamp_min cdf_delta 1e-12)) ;;
    log_probs <- th_where (lt_scalar x (-0.999)) log_cdf_plus inner ;;
    if shape_eqb (shape log_probs) (shape x)
    then Ok log_probs
    else Err AssertionError
  else Err AssertionError.

(** ** The formulas of the specification, on one element *)

(** The tanh approximation of the standard normal CDF. *)
Definition spec_cdf (x : R) : R :=
  0.5 * (1 + tanh (sqrt (2 / PI) * (x + 0.044715 * x ^ 3))).

(** The closed form of the KL divergence of two Gaussians. *)
Definition spec_kl (mean1 logvar1 mean2 logvar2 : R) : R :=
  0.5 * (-1 + logvar2 - logvar1 + exp (logvar1 - logvar2)
         + (mean1 - mean2) ^ 2 * exp (- logvar2)).

(** The log-density of [N(means, exp(log_scales)^2)] at [x]. *)
Definition spec_gaussian_log_density (x means log_scales : R) : R :=
  let z := (x - means) * exp (- log_scales) in
  - 0.5 * z ^ 2 - 0.5 * ln (2 * PI) - log_scales.

(** The three-way selection of the discretized log-likelihood. *)
Definition spec_discretized (x means log_scales : R) : R :=
  let cdf_plus := spec_cdf (exp (- log_scales) * (x - means + 1 / 255)) in
  let cdf_min := spec_cdf (exp (- log_scales) * (x - means - 1 / 255)) in
  if Rltb x (-0.999) then ln (Rmax cdf_plus 1e-12)
  else if Rltb 0.999 x then ln (Rmax (1 - cdf_min) 1e-12)
  else ln (Rmax (cdf_plus - cdf_min) 1e-12).

(** ** The range of the floating-point format

    The real scalars above describe the formulas without rounding,
    overflow or NaN.  The definitions below keep the range of the default
    floating type of torch ([float32]): a value is a real number within
    the range, an infinity, or NaN; a result beyond the largest float
    becomes an infinity and the special values combine by the IEEE 754
    rules.  Rounding of the results within the range is still left out. *)

Inductive fl : Type :=
| Fin (r : R)
| PInf
| NInf
| NaN.

#[export] Instance Default_fl : Default fl := Fin 0.

(** The largest [float32]. *)
Definition max_float : R := (2 - / 2 ^ 23) * 2 ^ 127.

(** The float a real result becomes. *)
Definition rnd (r : R) : fl :=
  if Rlt_dec max_float r then PInf
  else if Rlt_dec r (- max_float) then NInf
  else Fin r.

Definition fl_neg (a : fl) : fl :=
  match a with
  | Fin r => Fin (- r)
  | PInf => NInf
  | NInf => PInf
  | NaN => NaN
  end.

Definition fl_add (a b : fl) : fl :=
  match a, b with
  | NaN, _ | _, NaN => NaN
  | PInf, NInf | NInf, PInf => NaN
  | PInf, _ | _, PInf => PInf
  | NInf, _ | _, NInf => NInf
  | Fin x, Fin y => rnd (x + y)
  end.

Definition fl_sub (a b : fl) : fl := fl_add a (fl_neg b).

(** An infinity times the finite [x]: NaN for 0, else by the signs. *)
Definition fl_mul_inf (positive : bool) (x : R) : fl :=
  if Req_dec_T x 0 then NaN
  else if Rlt_dec 0 x then (if positive then PInf else NInf)
  else (if positive then NInf else PInf).

Definition fl_mul (a b : fl) : fl :=
  match a, b with
  | NaN, _ | _, NaN => NaN
  | Fin x, Fin y => rnd (x * y)
  | Fin x, PInf | PInf, Fin x => fl_mul_inf true x
  | Fin x, NInf | NInf, Fin x => fl_mul_inf false x
  | PInf, PInf | NInf, NInf => PInf
  | PInf, NInf | NInf, PInf => NInf
  end.

Definition fl_exp (a : fl) : fl :=
  match a with
  | Fin r => rnd (exp r)
  | PInf => PInf
  | NInf => Fin 0
  | NaN => NaN
  end.

Definition fl_tanh (a : fl) : fl :=
  match a with
  | Fin r => Fin (tanh r)
  | PInf => Fin 1
  | NInf => Fin (-1)
  | NaN => NaN
  end.


(** [a ** n] for a positive integer [n]. *)
Definition fl_pow (a : fl) (n : nat) : fl :=
  match a with
  | Fin r => rnd (r ^ n)
  | PInf => PInf
  | NInf => if Nat.odd n then NInf else PInf
  | NaN => NaN
  end.




(** [a <= b] as a proposition; false when an operand is NaN. *)
Definition fl_le (a b : fl) : Prop :=
  match a, b with
  | Fin x, Fin y => x <= y
  | NInf, Fin _ | NInf, PInf | Fin _, PInf | NInf, NInf | PInf, PInf => True
  | _, _ => False
  end.

(** [th.where] on float tensors. *)
Definition th_where_fl (c : Tensor bool) (a b : Tensor fl)
  : result (Tensor fl) :=
  match Shape.broadcast_all [shape c; shape a; shape b] with
  | None => Err RuntimeError
  | Some s =>
      Ok (mkTensor s
            (map (fun i => if bget c i then bget a i else bget b i)
                 (Shape.indices s)))
  end.

(** [approx_standard_normal_cdf] on float tensors. *)
Definition approx_standard_normal_cdf_fl (x : Tensor fl)
  : result (Tensor fl) :=
  inner <- map2 fl_add x
             (tmap (fl_mul (Fin 0.044715)) (tmap (fun v => fl_pow v 3) x)) ;;
  Ok (tmap (fl_mul (Fin 0.5))
        (tmap (fl_add (Fin 1))
           (tmap fl_tanh (tmap (fl_mul (Fin (sqrt (2 / PI)))) inner)))).


(** [normal_kl] on four float tensors: the loop finds [mean1] and no
    argument is converted. *)
Definition normal_kl_fl (mean1 logvar1 mean2 logvar2 : Tensor fl)
  : result (Tensor fl) :=
  t1 <- map2 fl_sub (tmap (fl_add (Fin (-1))) logvar2) logvar1 ;;
  d <- map2 fl_sub logvar1 logvar2 ;;
  t2 <- map2 fl_add t1 (tmap fl_exp d) ;;
  dm <- map2 fl_sub mean1 mean2 ;;
  t3 <- map2 fl_mul (tmap (fun v => fl_pow v 2) dm)
          (tmap fl_exp (tmap fl_neg logvar2)) ;;
  t4 <- map2 fl_add t2 t3 ;;
  Ok (tmap (fl_mul (Fin 0.5)) t4).

(** One float as a tensor of one element. *)
Definition fl_one (v : fl) : Tensor fl := mkTensor [1%nat] [v].

(** ** Sample inputs *)

(** Three pixels: the lowest value, a middle one, the highest. *)
Definition sample_x : Tensor R := mkTensor [3%nat] [-1; 0; 1].
Definition sample_zeros : Tensor R := mkTensor [3%nat] [0; 0; 0].

(** A column of two means and a row of three. *)
Definition sample_column : Tensor R := mkTensor [2%nat; 1%nat] [1; 2].
Definition sample_row : Tensor R := mkTensor [3%nat] [0; 1; 2].

(** Operands of four, three and one elements. *)
Definition sample_four : Tensor R := mkTensor [4%nat] [0; 0; 0; 0].
Definition sample_three : Tensor R := mkTensor [3%nat] [0; 0; 0].
Definition sample_one : Tensor R := mkTensor [1%nat] [0].

(** ** Inputs of the discretized likelihood *)

(** The target images are [uint8] values rescaled to [-1, 1]: the value
    [k] of a pixel becomes [2*k/255 - 1]. *)
Definition pixel (k : nat) : R := 2 * INR k / 255 - 1.

(** The 256 values a pixel can take, as one tensor. *)
Definition all_pixels : Tensor R := mkTensor [256%nat] (map pixel (seq 0 256)).

(** [th.full(s, v)]: a tensor of shape [s] that holds [v] everywhere. *)
Definition full (s : list nat) (v : R) : Tensor R :=
  mkTensor s (map (fun _ => v) (Shape.indices s)).

(** Sum of the numbers [f k] for [k] in [l]. *)
Definition sum_over (l : list nat) (f : nat -> R) : R :=
  fold_right Rplus 0 (map f l).

(** * Properties *)

(** ** Row-major storage *)

Module ShapeFacts.
Import Shape.
Local Open Scope nat_scope.

Lemma indices_length (s : list nat) : length (indices s) = numel s.
Proof.
  induction s as [|d s IH]; simpl; [reflexivity|].
  assert (G : forall st n,
             length (flat_map (fun k => map (cons k) (indices s)) (seq st n))
             = n * numel s).
  { intros st n; revert st.
    induction n as [|n IHn]; intros st; simpl; [reflexivity|].
    rewrite length_app, length_map, IHn, IH. reflexivity. }
  apply G.
Qed.

(** Reading block [k], position [j], of a concatenation of blocks of one
    length. *)
Lemma nth_flat_map_block (B : Type) (f : nat -> list B) (n : nat) (d : B) :
  (forall k, length (f k) = n) ->
  forall len st k j, (k < len)%nat -> (j < n)%nat ->
    nth (k * n + j) (flat_map f (seq st len)) d = nth j (f (st + k)%nat) d.
Proof.
  intros Hlen len.
  induction len as [|len IH]; intros st k j Hk Hj; [lia|].
  simpl. destruct k as [|k].
  - simpl. rewrite app_nth1 by (rewrite Hlen; exact Hj).
    rewrite Nat.add_0_r. reflexivity.
  - rewrite app_nth2 by (rewrite Hlen; simpl; lia).
    rewrite Hlen.
    replace (S k * n + j - n)%nat with (k * n + j)%nat by (simpl; lia).
    rewrite IH by lia.
    replace (S st + k)%nat with (st + S k)%nat by lia. reflexivity.
Qed.

Lemma offset_lt (s i : list nat) :
  in_range s i = true -> (offset s i < numel s)%nat.
Proof.
  revert i. induction s as [|d s IH]; intros [|k i] Hr; simpl in *;
    try discriminate; [lia|].
  apply andb_true_iff in Hr. destruct Hr as [Hk Hr].
  apply Nat.ltb_lt in Hk. specialize (IH _ Hr). nia.
Qed.

Lemma nth_indices (s i : list nat) (d : list nat) :
  in_range s i = true -> nth (offset s i) (indices s) d = i.
Proof.
  revert i. induction s as [|e s IH]; intros [|k i] Hr; simpl in *;
    try discriminate; [reflexivity|].
  apply andb_true_iff in Hr. destruct Hr as [Hk Hr].
  apply Nat.ltb_lt in Hk.
  rewrite (nth_flat_map_block _ (fun k => map (cons k) (indices s)) (numel s));
    [ | intros; rewrite length_map; apply indices_length
      | exact Hk
      | apply offset_lt; exact Hr ].
  simpl.
  rewrite (nth_indep _ d (k :: d))
    by (rewrite length_map, indices_length; apply offset_lt; exact Hr).
  rewrite (map_nth (cons k)). rewrite IH by exact Hr. reflexivity.
Qed.

(** A tensor built by tabulating [g] over the indices holds [g i] at [i]. *)
Lemma nth_tabulate (B : Type) (g : list nat -> B) (s i : list nat) (d : B) :
  in_range s i = true ->
  nth (offset s i) (map g (indices s)) d = g i.
Proof.
  intros Hr.
  rewrite (nth_indep _ d (g i))
    by (rewrite length_map, indices_length; apply offset_lt; exact Hr).
  rewrite (map_nth g). rewrite nth_indices by exact Hr. reflexivity.
Qed.

End ShapeFacts.

(** ** Broadcasting *)

Module BroadcastFacts.
Import Shape.
Local Open Scope nat_scope.

(** *** On reversed shapes *)

Lemma fits_rev_refl (s : list nat) : fits_rev s s = true.
Proof.
  induction s as [|d s IH]; simpl; [reflexivity|].
  rewrite Nat.eqb_refl, IH. reflexivity.
Qed.

Lemma fits_rev_cons (d e : nat) (s u : list nat) :
  fits_rev (d :: s) (e :: u) = true <-> (d = e \/ d = 1) /\ fits_rev s u = true.
Proof.
  simpl. rewrite andb_true_iff, orb_true_iff, !Nat.eqb_eq. reflexivity.
Qed.

Lemma fits_rev_trans (a b c : list nat) :
  fits_rev a b = true -> fits_rev b c = true -> fits_rev a c = true.
Proof.
  revert b c. induction a as [|x a IH]; intros [|y b] [|z c]; try easy.
  rewrite !fits_rev_cons. intros [Hxy Hab] [Hyz Hbc].
  split; [lia | eauto].
Qed.

Lemma fits_rev_antisym (a b : list nat) :
  fits_rev a b = true -> fits_rev b a = true -> a = b.
Proof.
  revert b. induction a as [|x a IH]; intros [|y b]; try easy.
  rewrite !fits_rev_cons. intros [Hxy Hab] [Hyx Hba].
  f_equal; [lia | auto].
Qed.

Lemma fits_rev_length (s u : list nat) :
  fits_rev s u = true -> length s <= length u.
Proof.
  revert u. induction s as [|d s IH]; intros [|e u]; simpl; try easy; [lia|].
  rewrite andb_true_iff. intros [_ Hs]. specialize (IH _ Hs). lia.
Qed.

Lemma join_rev_nil_r (a : list nat) : join_rev a [] = Some a.
Proof. destruct a; reflexivity. Qed.

Lemma join_rev_fits (a b s : list nat) :
  join_rev a b = Some s -> fits_rev a s = true /\ fits_rev b s = true.
Proof.
  revert b s. induction a as [|d a IH]; intros b s.
  - simpl. intros [= <-]. split; [reflexivity | apply fits_rev_refl].
  - destruct b as [|e b].
    + cbn [join_rev]. intros [= <-]. split; [apply fits_rev_refl | reflexivity].
    + cbn [join_rev]. destruct (join_rev a b) as [r|] eqn:Hj; [|discriminate].
      destruct (IH _ _ Hj) as [Ha Hb].
      destruct (d =? e) eqn:Hde; [|destruct (d =? 1) eqn:Hd1;
                                   [|destruct (e =? 1) eqn:He1]];
        intros [= <-]; simpl; rewrite ?Nat.eqb_refl, ?Hde, ?Hd1, ?He1, ?Ha, ?Hb;
        rewrite ?orb_true_r; simpl; auto.
      apply Nat.eqb_eq in Hde. subst e. rewrite Nat.eqb_refl. auto.
Qed.

Lemma join_rev_least (a b u : list nat) :
  fits_rev a u = true -> fits_rev b u = true ->
  exists s, join_rev a b = Some s /\ fits_rev s u = true.
Proof.
  revert b u. induction a as [|d a IH]; intros b u Ha Hb.
  - exists b. split; [reflexivity | exact Hb].
  - destruct b as [|e b].
    + exists (d :: a). split; [reflexivity | exact Ha].
    + destruct u as [|f u]; [discriminate|].
      apply fits_rev_cons in Ha. destruct Ha as [Hd Ha].
      apply fits_rev_cons in Hb. destruct Hb as [He Hb].
      destruct (IH _ _ Ha Hb) as [r [Hj Hr]].
      simpl. rewrite Hj.
      destruct (d =? e) eqn:Hde.
      * eexists; split; [reflexivity|]. apply fits_rev_cons. auto.
      * destruct (d =? 1) eqn:Hd1.
        -- eexists; split; [reflexivity|]. apply fits_rev_cons. auto.
        -- apply Nat.eqb_neq in Hde, Hd1.
           assert (He1 : e = 1) by lia. subst e. simpl.
           eexists; split; [reflexivity|]. apply fits_rev_cons.
           split; [lia | exact Hr].
Qed.

Lemma bidx_rev_length (s j : list nat) :
  length s <= length j -> length (bidx_rev s j) = length s.
Proof.
  revert j. induction s as [|d s IH]; intros [|k j]; simpl; try lia.
  intros Hl. rewrite IH by lia. reflexivity.
Qed.

(** Reading through two expansions is reading through the outer one. *)
Lemma bidx_rev_compose (s t j : list nat) :
  fits_rev s t = true -> length t <= length j ->
  bidx_rev s (bidx_rev t j) = bidx_rev s j.
Proof.
  revert t j. induction s as [|d s IH]; intros [|e t] [|k j]; simpl;
    try easy; try lia.
  rewrite andb_true_iff, orb_true_iff, !Nat.eqb_eq. intros [Hde Hs] Hl.
  rewrite IH by (auto; lia). f_equal.
  destruct (d =? 1) eqn:Hd1; [reflexivity|].
  apply Nat.eqb_neq in Hd1.
  destruct (e =? 1) eqn:He1; [apply Nat.eqb_eq in He1; lia | reflexivity].
Qed.

(** The index read in an operand is an index of the operand.  Both lists
    of the hypothesis are whole; only a prefix of them concerns [s]. *)
Lemma bidx_rev_in_range (s u j : list nat) :
  fits_rev s u = true -> in_range u j = true ->
  in_range s (bidx_rev s j) = true.
Proof.
  revert u j. induction s as [|d s IH]; intros [|e u] [|k j]; simpl;
    try easy.
  rewrite !andb_true_iff, orb_true_iff, !Nat.eqb_eq, Nat.ltb_lt.
  intros [Hde Hs] [Hk Hr]. split; [|eauto].
  destruct (d =? 1) eqn:Hd1.
  - apply Nat.eqb_eq in Hd1. apply Nat.ltb_lt. lia.
  - apply Nat.eqb_neq in Hd1. apply Nat.ltb_lt. lia.
Qed.

Lemma bidx_rev_id (s i : list nat) :
  in_range s i = true -> bidx_rev s i = i.
Proof.
  revert i. induction s as [|d s IH]; intros [|k i]; simpl; try easy.
  rewrite andb_true_iff, Nat.ltb_lt. intros [Hk Hr].
  rewrite IH by exact Hr. f_equal.
  destruct (d =? 1) eqn:Hd1; [apply Nat.eqb_eq in Hd1; lia | reflexivity].
Qed.

Lemma in_range_length (s i : list nat) :
  in_range s i = true -> length i = length s.
Proof.
  revert i. induction s as [|d s IH]; intros [|k i]; simpl; try easy.
  rewrite andb_true_iff. intros [_ Hr]. f_equal. auto.
Qed.

Lemma in_range_snoc (s i : list nat) (d k : nat) :
  in_range (s ++ [d]) (i ++ [k]) = in_range s i && (k <? d).
Proof.
  revert i. induction s as [|e s IH]; intros [|x i]; simpl.
  - rewrite andb_true_r. reflexivity.
  - destruct i; simpl; rewrite ?andb_false_r; reflexivity.
  - destruct s; simpl; rewrite ?andb_false_r; reflexivity.
  - rewrite IH, andb_assoc. reflexivity.
Qed.

Lemma in_range_rev (s i : list nat) :
  in_range (rev s) (rev i) = in_range s i.
Proof.
  revert i. induction s as [|d s IH]; intros [|k i]; simpl.
  - reflexivity.
  - destruct (rev i); reflexivity.
  - destruct (rev s); reflexivity.
  - rewrite in_range_snoc, IH, andb_comm. reflexivity.
Qed.

(** *** On shapes as the code writes them *)

Lemma fits_refl (s : list nat) : fits s s = true.
Proof. apply fits_rev_refl. Qed.

Lemma fits_nil (u : list nat) : fits [] u = true.
Proof. reflexivity. Qed.

Lemma fits_trans (a b c : list nat) :
  fits a b = true -> fits b c = true -> fits a c = true.
Proof. apply fits_rev_trans. Qed.

Lemma fits_antisym (a b : list nat) :
  fits a b = true -> fits b a = true -> a = b.
Proof.
  unfold fits. intros H1 H2.
  rewrite <- (rev_involutive a), <- (rev_involutive b).
  f_equal. apply fits_rev_antisym; assumption.
Qed.

Lemma broadcast_shapes_fits (a b s : list nat) :
  broadcast_shapes a b = Some s -> fits a s = true /\ fits b s = true.
Proof.
  unfold broadcast_shapes, fits.
  destruct (join_rev (rev a) (rev b)) as [r|] eqn:Hj; [|discriminate].
  simpl. intros [= <-]. rewrite rev_involutive. apply join_rev_fits, Hj.
Qed.

Lemma broadcast_shapes_least (a b u : list nat) :
  fits a u = true -> fits b u = true ->
  exists s, broadcast_shapes a b = Some s /\ fits s u = true.
Proof.
  unfold broadcast_shapes, fits. intros Ha Hb.
  destruct (join_rev_least _ _ _ Ha Hb) as [r [Hj Hr]].
  exists (rev r). rewrite Hj, rev_involutive. auto.
Qed.

Lemma broadcast_shapes_same (s : list nat) : broadcast_shapes s s = Some s.
Proof.
  destruct (broadcast_shapes_least s s s (fits_refl s) (fits_refl s))
    as [r [Hb Hr]].
  rewrite Hb. f_equal.
  apply fits_antisym; [exact Hr | apply (broadcast_shapes_fits _ _ _ Hb)].
Qed.

Lemma bidx_compose (s t u j : list nat) :
  fits s t = true -> fits t u = true -> in_range u j = true ->
  bidx s (bidx t j) = bidx s j.
Proof.
  unfold fits, bidx. intros Hst Htu Hr.
  rewrite rev_involutive. f_equal.
  apply bidx_rev_compose; [exact Hst|].
  apply fits_rev_length in Htu. apply in_range_length in Hr.
  rewrite !length_rev in *. lia.
Qed.

Lemma bidx_in_range (s u j : list nat) :
  fits s u = true -> in_range u j = true -> in_range s (bidx s j) = true.
Proof.
  unfold fits, bidx. intros Hs Hr.
  rewrite <- in_range_rev, rev_involutive.
  apply bidx_rev_in_range with (u := rev u); [exact Hs|].
  rewrite in_range_rev. exact Hr.
Qed.

Lemma bidx_id (s i : list nat) : in_range s i = true -> bidx s i = i.
Proof.
  unfold bidx. intros Hr.
  rewrite bidx_rev_id by (rewrite in_range_rev; exact Hr).
  apply rev_involutive.
Qed.

(** A value whose shape the shape of the distribution expands to passes
    the shape check. *)
Lemma compatible_rev_fits (s u : list nat) :
  fits_rev s u = true -> compatible_rev u s = true.
Proof.
  revert u. induction s as [|d s IH]; intros [|e u]; simpl; try easy.
  rewrite andb_true_iff, orb_true_iff, !Nat.eqb_eq. intros [Hde Hs].
  rewrite (IH _ Hs), andb_true_r.
  destruct Hde as [-> | ->].
  - rewrite Nat.eqb_refl, !andb_false_r. reflexivity.
  - rewrite andb_false_r. reflexivity.
Qed.

Lemma compatible_fits (s u : list nat) :
  fits s u = true -> compatible u s = true.
Proof. apply compatible_rev_fits. Qed.

End BroadcastFacts.

(** ** Elementwise operations *)

Module TensorFacts.
Import Shape ShapeFacts BroadcastFacts.

Lemma bind_inv (A B : Type) (m : result A) (k : A -> result B) (r : B) :
  bind m k = Ok r -> exists a, m = Ok a /\ k a = Ok r.
Proof. destruct m as [a|e]; simpl; [eauto | discriminate]. Qed.

Lemma bind_err (A B : Type) (m : result A) (k : A -> result B) (e : error) :
  bind m k = Err e -> m = Err e \/ exists a, m = Ok a /\ k a = Err e.
Proof. destruct m as [a|e']; simpl; [eauto | intros [= <-]; auto]. Qed.

Section Reads.

Context {A : Type} `{Default A}.

Lemma get_tabulate (g : list nat -> A) (s i : list nat) :
  in_range s i = true -> get (mkTensor s (map g (indices s))) i = g i.
Proof. intros Hr. unfold get. simpl. apply nth_tabulate, Hr. Qed.

Lemma bget_tabulate (g : list nat -> A) (s u j : list nat) :
  fits s u = true -> in_range u j = true ->
  bget (mkTensor s (map g (indices s))) j = g (bidx s j).
Proof.
  intros Hs Hr. unfold bget. simpl shape.
  apply get_tabulate. apply bidx_in_range with (u := u); assumption.
Qed.

Lemma bget_get (t : Tensor A) (i : list nat) :
  in_range (shape t) i = true -> bget t i = get t i.
Proof. intros Hr. unfold bget. rewrite bidx_id by exact Hr. reflexivity. Qed.

(** Reading an operand at the index an expanded result reads it. *)
Lemma bget_bidx (t : Tensor A) (s u j : list nat) :
  fits (shape t) s = true -> fits s u = true -> in_range u j = true ->
  bget t (bidx s j) = bget t j.
Proof.
  intros Hts Hsu Hr. unfold bget.
  rewrite (bidx_compose _ _ _ _ Hts Hsu Hr). reflexivity.
Qed.

End Reads.

Lemma shape_tmap (A B : Type) `{Default A} (f : A -> B) (t : Tensor A) :
  shape (tmap f t) = shape t.
Proof. reflexivity. Qed.

Lemma bget_tmap (A B : Type) `{Default A} `{Default B}
  (f : A -> B) (t : Tensor A) (u j : list nat) :
  fits (shape t) u = true -> in_range u j = true ->
  bget (tmap f t) j = f (bget t j).
Proof.
  intros Hs Hr. unfold tmap.
  rewrite (bget_tabulate _ _ _ _ Hs Hr). reflexivity.
Qed.

Section Map2.

Context {A B C : Type} `{Default A} `{Default B} `{Default C}.
Variable f : A -> B -> C.

(** What a successful [map2] returns. *)
Lemma map2_inv (a : Tensor A) (b : Tensor B) (c : Tensor C) :
  map2 f a b = Ok c ->
  broadcast_shapes (shape a) (shape b) = Some (shape c) /\
  forall u j, fits (shape c) u = true -> in_range u j = true ->
    bget c j = f (bget a j) (bget b j).
Proof.
  unfold map2.
  destruct (broadcast_shapes (shape a) (shape b)) as [s|] eqn:Hb;
    [|discriminate].
  intros [= <-]. split; [reflexivity|].
  intros u j Hs Hr. simpl shape in Hs.
  destruct (broadcast_shapes_fits _ _ _ Hb) as [Ha Hb'].
  rewrite (bget_tabulate _ _ _ _ Hs Hr).
  rewrite (bget_bidx a _ _ _ Ha Hs Hr), (bget_bidx b _ _ _ Hb' Hs Hr).
  reflexivity.
Qed.

(** [map2] succeeds on operands that expand to one shape. *)
Lemma map2_ok (a : Tensor A) (b : Tensor B) (u : list nat) :
  fits (shape a) u = true -> fits (shape b) u = true ->
  exists c, map2 f a b = Ok c /\ fits (shape c) u = true.
Proof.
  intros Ha Hb. unfold map2.
  destruct (broadcast_shapes_least _ _ _ Ha Hb) as [s [Hs Hsu]].
  rewrite Hs. eexists; split; [reflexivity | exact Hsu].
Qed.

Lemma map2_err (a : Tensor A) (b : Tensor B) (e : error) :
  map2 f a b = Err e -> e = RuntimeError.
Proof.
  unfold map2. destruct (broadcast_shapes _ _); [discriminate|].
  intros [= <-]. reflexivity.
Qed.

Lemma map2_same_shape (a : Tensor A) (b : Tensor B) :
  shape a = shape b ->
  exists c, map2 f a b = Ok c /\ shape c = shape a.
Proof.
  intros Hs. unfold map2. rewrite <- Hs, broadcast_shapes_same.
  eexists; split; reflexivity.
Qed.

End Map2.

(** The same facts, read from a result that expands to [u] down to its
    operands. *)

Lemma tmap_reads (A B : Type) `{Default A} `{Default B}
  (f : A -> B) (t : Tensor A) (u : list nat) :
  fits (shape (tmap f t)) u = true ->
  fits (shape t) u = true /\
  forall j, in_range u j = true -> bget (tmap f t) j = f (bget t j).
Proof.
  intros Hs. split; [exact Hs|].
  intros j Hr. apply (bget_tmap _ _ f t u j Hs Hr).
Qed.

Lemma map2_reads (A B C : Type) `{Default A} `{Default B} `{Default C}
  (f : A -> B -> C) (a : Tensor A) (b : Tensor B) (c : Tensor C)
  (u : list nat) :
  map2 f a b = Ok c -> fits (shape c) u = true ->
  fits (shape a) u = true /\ fits (shape b) u = true /\
  forall j, in_range u j = true -> bget c j = f (bget a j) (bget b j).
Proof.
  intros Hm Hs. destruct (map2_inv f a b c Hm) as [Hb Hget].
  destruct (broadcast_shapes_fits _ _ _ Hb) as [Ha Hb'].
  repeat split.
  - exact (fits_trans _ _ _ Ha Hs).
  - exact (fits_trans _ _ _ Hb' Hs).
  - intros j Hr. apply (Hget u j Hs Hr).
Qed.

(** [th.where] *)

Lemma th_where_reads (c : Tensor bool) (a b r : Tensor R) (u : list nat) :
  th_where c a b = Ok r -> fits (shape r) u = true ->
  fits (shape c) u = true /\ fits (shape a) u = true /\
  fits (shape b) u = true /\
  forall j, in_range u j = true ->
    bget r j = if bget c j then bget a j else bget b j.
Proof.
  unfold th_where, broadcast_all.
  destruct (broadcast_shapes (shape b) []) as [s1|] eqn:H1; [|discriminate].
  destruct (broadcast_shapes (shape a) s1) as [s2|] eqn:H2; [|discriminate].
  destruct (broadcast_shapes (shape c) s2) as [s3|] eqn:H3; [|discriminate].
  intros [= <-] Hs. simpl shape in Hs.
  destruct (broadcast_shapes_fits _ _ _ H1) as [Hb1 _].
  destruct (broadcast_shapes_fits _ _ _ H2) as [Ha2 H12].
  destruct (broadcast_shapes_fits _ _ _ H3) as [Hc3 H23].
  assert (Ha3 : fits (shape a) s3 = true) by eauto using fits_trans.
  assert (Hb3 : fits (shape b) s3 = true) by eauto using fits_trans.
  repeat split; eauto using fits_trans.
  intros j Hr. rewrite (bget_tabulate _ _ _ _ Hs Hr).
  rewrite (bget_bidx c _ _ _ Hc3 Hs Hr), (bget_bidx a _ _ _ Ha3 Hs Hr),
    (bget_bidx b _ _ _ Hb3 Hs Hr).
  reflexivity.
Qed.

Lemma broadcast_shapes_nil_r (s : list nat) : broadcast_shapes s [] = Some s.
Proof.
  destruct (broadcast_shapes_least s [] s (fits_refl _) (fits_nil _))
    as [r [Hs Hf]].
  rewrite Hs. f_equal.
  apply fits_antisym; [exact Hf | apply (broadcast_shapes_fits _ _ _ Hs)].
Qed.

Lemma th_where_same_shape (c : Tensor bool) (a b : Tensor R) :
  shape c = shape a -> shape b = shape a ->
  exists r, th_where c a b = Ok r /\ shape r = shape a.
Proof.
  intros Hc Hb. unfold th_where, broadcast_all. rewrite Hc, Hb.
  rewrite broadcast_shapes_nil_r, !broadcast_shapes_same.
  eexists; split; reflexivity.
Qed.

(** Arguments that are a number or a tensor *)

Lemma force_tensor_shape (tensor : dtype * Tensor R) (v : value) :
  shape (force_tensor tensor v) = vshape v.
Proof. destruct v, tensor as [[|] t0]; reflexivity. Qed.

Lemma force_tensor_bget (tensor : dtype * Tensor R) (v : value)
  (j : list nat) :
  bget (force_tensor tensor v) j = forced_at (fst tensor) v j.
Proof. destruct v, tensor as [[|] t0]; reflexivity. Qed.

Lemma vsub_reads (a b c : value) (u : list nat) :
  vsub a b = Ok c -> fits (vshape c) u = true ->
  fits (vshape a) u = true /\ fits (vshape b) u = true /\
  forall j, in_range u j = true -> vget c j = vget a j - vget b j.
Proof.
  destruct a as [x|d t], b as [y|d' t']; simpl.
  - intros [= <-] _. auto.
  - intros [= <-] Hs. simpl in Hs. repeat split; auto.
    intros j Hr. simpl. rewrite (bget_tmap _ _ _ _ u j Hs Hr). reflexivity.
  - intros [= <-] Hs. simpl in Hs. repeat split; auto.
    intros j Hr. simpl. rewrite (bget_tmap _ _ _ _ u j Hs Hr). reflexivity.
  - intros Hb Hs. apply bind_inv in Hb. destruct Hb as [t2 [Hm [= <-]]].
    simpl in Hs. apply (map2_reads _ _ _ Rminus t t' t2 u Hm Hs).
Qed.

Lemma vpow_reads (a : value) (n : nat) (u : list nat) :
  fits (vshape (vpow a n)) u = true ->
  fits (vshape a) u = true /\
  forall j, in_range u j = true -> vget (vpow a n) j = vget a j ^ n.
Proof.
  destruct a as [x|d t]; simpl; intros Hs; split; auto.
  intros j Hr. unfold th_pow. rewrite (bget_tmap _ _ _ _ u j Hs Hr).
  reflexivity.
Qed.

Lemma vmul_reads (a : value) (t c : Tensor R) (u : list nat) :
  vmul a t = Ok c -> fits (shape c) u = true ->
  fits (vshape a) u = true /\ fits (shape t) u = true /\
  forall j, in_range u j = true -> bget c j = vget a j * bget t j.
Proof.
  destruct a as [x|d t']; simpl.
  - intros [= <-] Hs. simpl in Hs. repeat split; auto.
    intros j Hr. rewrite (bget_tmap _ _ _ _ u j Hs Hr). reflexivity.
  - intros Hm Hs. apply (map2_reads _ _ _ Rmult t' t c u Hm Hs).
Qed.

Lemma vsub_ok (a b : value) (u : list nat) :
  fits (vshape a) u = true -> fits (vshape b) u = true ->
  exists c, vsub a b = Ok c /\ fits (vshape c) u = true.
Proof.
  destruct a as [x|d t], b as [y|d' t']; simpl; intros Ha Hb;
    try (eexists; split; [reflexivity | assumption]).
  destruct (map2_ok Rminus t t' u Ha Hb) as [c [Hc Hf]].
  rewrite Hc. simpl. eexists; split; [reflexivity | exact Hf].
Qed.

Lemma vmul_ok (a : value) (t : Tensor R) (u : list nat) :
  fits (vshape a) u = true -> fits (shape t) u = true ->
  exists c, vmul a t = Ok c /\ fits (shape c) u = true.
Proof.
  destruct a as [x|d t']; simpl; intros Ha Ht.
  - eexists; split; [reflexivity | assumption].
  - apply (map2_ok Rmult t' t u Ha Ht).
Qed.

Lemma vsub_err (a b : value) (e : error) :
  vsub a b = Err e -> e = RuntimeError.
Proof.
  destruct a as [x|d t], b as [y|d' t']; simpl; try discriminate.
  intros Hb. apply bind_err in Hb.
  destruct Hb as [Hm | [c [_ Hc]]]; [|discriminate].
  apply (map2_err Rminus t t' e Hm).
Qed.

Lemma vmul_err (a : value) (t : Tensor R) (e : error) :
  vmul a t = Err e -> e = RuntimeError.
Proof.
  destruct a as [x|d t']; simpl; [discriminate|]. apply map2_err.
Qed.

End TensorFacts.

(** ** [normal_kl] *)

Module NormalKL.
Import Shape ShapeFacts BroadcastFacts TensorFacts.

(** Walks from a result that expands to [u] down to the operands of the
    operations that built it. *)
Ltac reads_down :=
  unfold th_exp, th_log, th_tanh, th_pow, neg, clamp_min in *;
  repeat match goal with
    | Hm : map2 ?f ?a ?b = Ok ?c, Hs : fits (shape ?c) ?u = true |- _ =>
        let Ha := fresh "Hfit" in
        let Hb := fresh "Hfit" in
        let He := fresh "Hval" in
        destruct (map2_reads _ _ _ f a b c u Hm Hs) as [Ha [Hb He]]; clear Hm
    | Hm : vmul ?a ?t = Ok ?c, Hs : fits (shape ?c) ?u = true |- _ =>
        let Ha := fresh "Hfit" in
        let Hb := fresh "Hfit" in
        let He := fresh "Hval" in
        destruct (vmul_reads a t c u Hm Hs) as [Ha [Hb He]]; clear Hm
    | Hm : vsub ?a ?b = Ok ?c, Hs : fits (vshape ?c) ?u = true |- _ =>
        let Ha := fresh "Hfit" in
        let Hb := fresh "Hfit" in
        let He := fresh "Hval" in
        destruct (vsub_reads a b c u Hm Hs) as [Ha [Hb He]]; clear Hm
    | Hs : fits (vshape (vpow ?a ?n)) ?u = true |- _ =>
        let Ha := fresh "Hfit" in
        let He := fresh "Hval" in
        destruct (vpow_reads a n u Hs) as [Ha He]; clear Hs
    | Hs : fits (shape (tmap ?f ?t)) ?u = true |- _ =>
        let Ha := fresh "Hfit" in
        let He := fresh "Hval" in
        destruct (tmap_reads _ _ f t u Hs) as [Ha He]; clear Hs
    end.

(** Rewrites the element of every intermediate result at index [i]. *)
Ltac reads_at i Hr :=
  repeat match goal with
    | He : forall j, in_range _ j = true -> _ |- _ =>
        specialize (He i Hr)
    end;
  repeat match goal with
    | He : bget _ i = _ |- _ => rewrite He
    | He : vget _ i = _ |- _ => rewrite He
    end.

Lemma first_tensor_none (objs : list value) :
  first_tensor objs = None <-> forallb (fun o => negb (is_tensor o)) objs = true.
Proof.
  induction objs as [|[x|d t] objs IH]; simpl; [tauto | exact IH | easy].
Qed.

(** What [normal_kl] returns when it returns.  The log-variances enter
    the formula as forced to tensors of the element type of the tensor the
    loop found. *)
Lemma normal_kl_reads_forced (mean1 logvar1 mean2 logvar2 : value)
  (r : Tensor R) :
  normal_kl mean1 logvar1 mean2 logvar2 = Ok r ->
  exists tensor,
    first_tensor [mean1; logvar1; mean2; logvar2] = Some tensor /\
    (fits (vshape mean1) (shape r) = true /\
     fits (vshape logvar1) (shape r) = true /\
     fits (vshape mean2) (shape r) = true /\
     fits (vshape logvar2) (shape r) = true) /\
    forall i, in_range (shape r) i = true ->
      get r i = spec_kl (vget mean1 i) (forced_at (fst tensor) logvar1 i)
                        (vget mean2 i) (forced_at (fst tensor) logvar2 i).
Proof.
  unfold normal_kl.
  destruct (first_tensor _) as [tensor|]; [|discriminate].
  rewrite <- (force_tensor_shape tensor logvar1),
          <- (force_tensor_shape tensor logvar2).
  intros Hk. exists tensor. split; [reflexivity|].
  apply bind_inv in Hk. destruct Hk as [t1 [H1 Hk]].
  apply bind_inv in Hk. destruct Hk as [d [Hd Hk]].
  apply bind_inv in Hk. destruct Hk as [t2 [H2 Hk]].
  apply bind_inv in Hk. destruct Hk as [dm [Hdm Hk]].
  apply bind_inv in Hk. destruct Hk as [t3 [H3 Hk]].
  apply bind_inv in Hk. destruct Hk as [t4 [H4 Hk]].
  injection Hk as <-.
  pose proof (fits_refl (shape (tmap (fun v => 0.5 * v) t4))) as Hs.
  set (u := shape (tmap (fun v => 0.5 * v) t4)) in Hs at 2 |- *.
  reads_down.
  split; [auto|].
  intros i Hr. rewrite <- bget_get by exact Hr.
  reads_at i Hr.
  rewrite !force_tensor_bget. unfold spec_kl. reflexivity.
Qed.


(** The shapes of the arguments fit the shape of the result. *)
Lemma normal_kl_fits (mean1 logvar1 mean2 logvar2 : value) (r : Tensor R) :
  normal_kl mean1 logvar1 mean2 logvar2 = Ok r ->
  fits (vshape mean1) (shape r) = true /\
  fits (vshape logvar1) (shape r) = true /\
  fits (vshape mean2) (shape r) = true /\
  fits (vshape logvar2) (shape r) = true.
Proof.
  intros Hk.
  destruct (normal_kl_reads_forced _ _ _ _ _ Hk) as [tensor [_ [Hf _]]].
  exact Hf.
Qed.


Lemma vpow_shape (a : value) (n : nat) : vshape (vpow a n) = vshape a.
Proof. destruct a; reflexivity. Qed.

(** [normal_kl] returns when one argument is a tensor and the four
    arguments expand to one shape. *)
Lemma normal_kl_ok (mean1 logvar1 mean2 logvar2 : value) (u : list nat) :
  existsb is_tensor [mean1; logvar1; mean2; logvar2] = true ->
  fits (vshape mean1) u = true -> fits (vshape logvar1) u = true ->
  fits (vshape mean2) u = true -> fits (vshape logvar2) u = true ->
  exists r, normal_kl mean1 logvar1 mean2 logvar2 = Ok r /\
            fits (shape r) u = true.
Proof.
  intros Hex Hm1 Hl1 Hm2 Hl2. unfold normal_kl.
  destruct (first_tensor [mean1; logvar1; mean2; logvar2]) as [tensor|] eqn:Hft.
  2:{ apply first_tensor_none in Hft. simpl in Hex, Hft.
      destruct (is_tensor mean1), (is_tensor logvar1), (is_tensor mean2),
        (is_tensor logvar2); discriminate. }
  rewrite <- (force_tensor_shape tensor logvar1) in Hl1.
  rewrite <- (force_tensor_shape tensor logvar2) in Hl2.
  cbv zeta.
  set (L1 := force_tensor tensor logvar1) in *.
  set (L2 := force_tensor tensor logvar2) in *.
  destruct (map2_ok Rminus (tmap (fun v => -1 + v) L2) L1 u Hl2 Hl1)
    as [t1 [E1 F1]].
  rewrite E1. cbn [bind].
  destruct (map2_ok Rminus L1 L2 u Hl1 Hl2) as [d [Ed Fd]].
  rewrite Ed. cbn [bind].
  destruct (map2_ok Rplus t1 (th_exp d) u F1 Fd) as [t2 [E2 F2]].
  rewrite E2. cbn [bind].
  destruct (vsub_ok mean1 mean2 u Hm1 Hm2) as [dm [Edm Fdm]].
  rewrite Edm. cbn [bind].
  rewrite <- (vpow_shape dm 2) in Fdm.
  destruct (vmul_ok (vpow dm 2) (th_exp (neg L2)) u Fdm Hl2) as [t3 [E3 F3]].
  rewrite E3. cbn [bind].
  destruct (map2_ok Rplus t2 t3 u F2 F3) as [t4 [E4 F4]].
  rewrite E4. cbn [bind].
  eexists; split; [reflexivity | exact F4].
Qed.

(** Past the assertion, [normal_kl] only fails on operands that do not
    broadcast. *)
Lemma normal_kl_err (mean1 logvar1 mean2 logvar2 : value) (e : error) :
  existsb is_tensor [mean1; logvar1; mean2; logvar2] = true ->
  normal_kl mean1 logvar1 mean2 logvar2 = Err e -> e = RuntimeError.
Proof.
  intros Hex. unfold normal_kl.
  destruct (first_tensor [mean1; logvar1; mean2; logvar2]) as [tensor|] eqn:Hft.
  2:{ apply first_tensor_none in Hft. simpl in Hex, Hft.
      destruct (is_tensor mean1), (is_tensor logvar1), (is_tensor mean2),
        (is_tensor logvar2); discriminate. }
  cbv zeta. intros Hk.
  repeat (apply bind_err in Hk;
          destruct Hk as [Hk | [? [_ Hk]]];
          [ solve [ exact (map2_err _ _ _ _ Hk)
                  | exact (vsub_err _ _ _ Hk)
                  | exact (vmul_err _ _ _ Hk) ] | ]).
  discriminate.
Qed.

(** The broadcast shape of several operands is their least common
    expansion. *)
Lemma broadcast_all_fits (l : list (list nat)) (s : list nat) :
  broadcast_all l = Some s -> Forall (fun a => fits a s = true) l.
Proof.
  revert s. induction l as [|a l IH]; intros s; simpl; [constructor|].
  destruct (broadcast_all l) as [r|]; [|discriminate].
  intros Hb. destruct (broadcast_shapes_fits _ _ _ Hb) as [Ha Hr].
  constructor; [exact Ha|].
  eapply Forall_impl; [|apply IH; reflexivity].
  intros b Hb'. simpl in Hb'. exact (fits_trans _ _ _ Hb' Hr).
Qed.

Lemma broadcast_all_least (l : list (list nat)) (u : list nat) :
  Forall (fun a => fits a u = true) l ->
  exists s, broadcast_all l = Some s /\ fits s u = true.
Proof.
  induction 1 as [|a l Ha Hl IH]; simpl.
  - exists []. split; [reflexivity | apply fits_nil].
  - destruct IH as [r [Hr Hf]]. rewrite Hr.
    apply broadcast_shapes_least; assumption.
Qed.

(** [normal_kl] returns a tensor of the broadcast shape of its arguments. *)
Lemma normal_kl_shape (mean1 logvar1 mean2 logvar2 : value) (s : list nat) :
  existsb is_tensor [mean1; logvar1; mean2; logvar2] = true ->
  broadcast_all [vshape mean1; vshape logvar1; vshape mean2; vshape logvar2]
    = Some s ->
  exists r, normal_kl mean1 logvar1 mean2 logvar2 = Ok r /\ shape r = s.
Proof.
  intros Hex Hb.
  pose proof (broadcast_all_fits _ _ Hb) as Hall.
  inversion Hall as [|? ? Hm1 Hall1]; subst.
  inversion Hall1 as [|? ? Hl1 Hall2]; subst.
  inversion Hall2 as [|? ? Hm2 Hall3]; subst.
  inversion Hall3 as [|? ? Hl2 _]; subst.
  destruct (normal_kl_ok mean1 logvar1 mean2 logvar2 s Hex Hm1 Hl1 Hm2 Hl2)
    as [r [Hk Hf]].
  exists r. split; [exact Hk|].
  destruct (normal_kl_fits _ _ _ _ _ Hk) as [F1 [F2 [F3 F4]]].
  destruct (broadcast_all_least
              [vshape mean1; vshape logvar1; vshape mean2; vshape logvar2]
              (shape r)) as [s' [Hs' Hf']].
  { repeat constructor; assumption. }
  rewrite Hb in Hs'. injection Hs' as <-.
  apply fits_antisym; assumption.
Qed.

(** The scalar formula *)

Lemma spec_kl_nonneg (mean1 logvar1 mean2 logvar2 : R) :
  0 <= spec_kl mean1 logvar1 mean2 logvar2.
Proof.
  unfold spec_kl.
  pose proof (exp_ineq1_le (logvar1 - logvar2)) as He.
  pose proof (pow2_ge_0 (mean1 - mean2)) as Hsq.
  pose proof (exp_pos (- logvar2)) as Hp.
  assert (0 <= (mean1 - mean2) ^ 2 * exp (- logvar2)) by nra.
  lra.
Qed.

Lemma spec_kl_same (mean logvar : R) : spec_kl mean logvar mean logvar = 0.
Proof.
  unfold spec_kl.
  replace (logvar - logvar) with 0 by ring. rewrite exp_0.
  replace (mean - mean) with 0 by ring. lra.
Qed.

End NormalKL.

(** ** The scalar functions *)

Module ScalarFacts.

Lemma exp_le (x y : R) : x <= y -> exp x <= exp y.
Proof.
  intros [Hlt | ->]; [left; apply exp_increasing, Hlt | right; reflexivity].
Qed.


Lemma ln_sqrt (x : R) : 0 < x -> ln (sqrt x) = 0.5 * ln x.
Proof.
  intros Hx.
  assert (Hs : 0 < sqrt x) by (apply sqrt_lt_R0; exact Hx).
  pose proof (ln_mult (sqrt x) (sqrt x) Hs Hs) as Hm.
  rewrite sqrt_def in Hm by lra. lra.
Qed.

(** [tanh] written with the two exponentials. *)
Lemma tanh_exp (x : R) :
  tanh x = (exp x - exp (- x)) / (exp x + exp (- x)).
Proof.
  unfold tanh, sinh, cosh.
  pose proof (exp_pos x). pose proof (exp_pos (- x)).
  field. lra.
Qed.

Lemma tanh_bounds (x : R) : -1 < tanh x < 1.
Proof.
  rewrite tanh_exp.
  pose proof (exp_pos x) as Ha. pose proof (exp_pos (- x)) as Hb.
  set (a := exp x) in *. set (b := exp (- x)) in *.
  assert (Hc : 0 < a + b) by lra.
  split.
  - apply Rmult_lt_reg_r with (a + b); [exact Hc|].
    unfold Rdiv. rewrite Rmult_assoc, Rinv_l by lra. lra.
  - apply Rmult_lt_reg_r with (a + b); [exact Hc|].
    unfold Rdiv. rewrite Rmult_assoc, Rinv_l by lra. lra.
Qed.

Lemma tanh_0 : tanh 0 = 0.
Proof.
  rewrite tanh_exp. rewrite Ropp_0, exp_0. lra.
Qed.

Lemma tanh_le (x y : R) : x <= y -> tanh x <= tanh y.
Proof.
  intros Hxy. rewrite !tanh_exp.
  pose proof (exp_pos x) as Ha. pose proof (exp_pos (- x)) as Hb.
  pose proof (exp_pos y) as Hc. pose proof (exp_pos (- y)) as Hd.
  assert (Hac : exp x <= exp y) by (apply exp_le; exact Hxy).
  assert (Hdb : exp (- y) <= exp (- x)) by (apply exp_le; lra).
  set (a := exp x) in *. set (b := exp (- x)) in *.
  set (c := exp y) in *. set (d := exp (- y)) in *.
  apply Rmult_le_reg_r with ((a + b) * (c + d)); [nra|].
  replace ((a - b) / (a + b) * ((a + b) * (c + d)))
    with ((a - b) * (c + d)) by (field; lra).
  replace ((c - d) / (c + d) * ((a + b) * (c + d)))
    with ((c - d) * (a + b)) by (field; lra).
  nra.
Qed.

(** The cubic inside the approximation is non-decreasing. *)
Lemma cubic_le (x y : R) :
  x <= y -> x + 0.044715 * x ^ 3 <= y + 0.044715 * y ^ 3.
Proof.
  intros Hxy.
  assert (H : 0 <= x * x + x * y + y * y) by nra.
  assert (E : y + 0.044715 * y ^ 3 - (x + 0.044715 * x ^ 3)
              = (y - x) * (1 + 0.044715 * (x * x + x * y + y * y))) by ring.
  assert (0 <= (y - x) * (1 + 0.044715 * (x * x + x * y + y * y))) by
    (apply Rmult_le_pos; lra).
  lra.
Qed.

Lemma spec_cdf_le (x y : R) : x <= y -> spec_cdf x <= spec_cdf y.
Proof.
  intros Hxy. unfold spec_cdf.
  pose proof (cubic_le x y Hxy) as Hc.
  pose proof (sqrt_pos (2 / PI)) as Hs.
  assert (Hin : sqrt (2 / PI) * (x + 0.044715 * x ^ 3)
                <= sqrt (2 / PI) * (y + 0.044715 * y ^ 3))
    by (apply Rmult_le_compat_l; assumption).
  pose proof (tanh_le _ _ Hin). lra.
Qed.

Lemma spec_cdf_0 : spec_cdf 0 = 0.5.
Proof.
  unfold spec_cdf.
  replace (sqrt (2 / PI) * (0 + 0.044715 * 0 ^ 3)) with 0 by ring.
  rewrite tanh_0. lra.
Qed.

Lemma spec_cdf_bounds (x : R) : 0 <= spec_cdf x <= 1.
Proof.
  unfold spec_cdf.
  pose proof (tanh_bounds (sqrt (2 / PI) * (x + 0.044715 * x ^ 3))). lra.
Qed.



Lemma Rltb_true (x y : R) : Rltb x y = true <-> x < y.
Proof. unfold Rltb. destruct (Rlt_dec x y); split; easy. Qed.

Lemma Rltb_false (x y : R) : Rltb x y = false <-> y <= x.
Proof.
  unfold Rltb. destruct (Rlt_dec x y); split; try easy; intros; lra.
Qed.



End ScalarFacts.

(** ** [approx_standard_normal_cdf] and the two log-likelihoods *)

Module Likelihood.
Import Shape ShapeFacts BroadcastFacts TensorFacts NormalKL ScalarFacts.

Lemma approx_cdf_reads (x r : Tensor R) (u : list nat) :
  approx_standard_normal_cdf x = Ok r -> fits (shape r) u = true ->
  fits (shape x) u = true /\
  forall j, in_range u j = true -> bget r j = spec_cdf (bget x j).
Proof.
  unfold approx_standard_normal_cdf. intros Hk Hs.
  apply bind_inv in Hk. destruct Hk as [inner [Hin Hk]].
  injection Hk as <-.
  reads_down.
  split; [assumption|].
  intros j Hr. reads_at j Hr. unfold spec_cdf. reflexivity.
Qed.

Lemma approx_cdf_ok (x : Tensor R) :
  exists r, approx_standard_normal_cdf x = Ok r /\ shape r = shape x.
Proof.
  unfold approx_standard_normal_cdf.
  destruct (map2_same_shape Rplus x
              (tmap (fun v => 0.044715 * v) (th_pow x 3)) eq_refl)
    as [inner [Hin Hs]].
  rewrite Hin. cbn [bind]. eexists; split; [reflexivity | exact Hs].
Qed.

(** Walks down through [approx_standard_normal_cdf] and [th.where] too. *)
Ltac reads_down_all :=
  unfold lt_scalar, gt_scalar in *;
  repeat (reads_down;
    match goal with
    | Hm : approx_standard_normal_cdf ?x = Ok ?c,
      Hs : fits (shape ?c) ?u = true |- _ =>
        let Ha := fresh "Hfit" in
        let He := fresh "Hval" in
        destruct (approx_cdf_reads x c u Hm Hs) as [Ha He]; clear Hm
    | Hm : th_where ?c ?a ?b = Ok ?r, Hs : fits (shape ?r) ?u = true |- _ =>
        let Hc := fresh "Hfit" in
        let Ha := fresh "Hfit" in
        let Hb := fresh "Hfit" in
        let He := fresh "Hval" in
        destruct (th_where_reads c a b r u Hm Hs) as [Hc [Ha [Hb He]]];
        clear Hm
    end);
  reads_down.

Lemma shape_eqb_true (s u : list nat) : shape_eqb s u = true <-> s = u.
Proof.
  unfold shape_eqb. destruct (list_eq_dec Nat.eq_dec s u); split; easy.
Qed.

(** What [discretized_gaussian_log_likelihood] returns when it returns. *)
Lemma discretized_reads (x means log_scales r : Tensor R) :
  discretized_gaussian_log_likelihood x means log_scales = Ok r ->
  shape r = shape x /\
  forall i, in_range (shape x) i = true ->
    get r i = spec_discretized (get x i) (get means i) (get log_scales i).
Proof.
  unfold discretized_gaussian_log_likelihood.
  destruct (shape_eqb (shape x) (shape means)
            && shape_eqb (shape means) (shape log_scales)) eqn:Hsh;
    [|discriminate].
  apply andb_true_iff in Hsh. destruct Hsh as [Hxm Hml].
  apply shape_eqb_true in Hxm, Hml.
  intros Hk.
  apply bind_inv in Hk. destruct Hk as [centered_x [Hc Hk]].
  apply bind_inv in Hk. destruct Hk as [plus_in [Hp Hk]].
  apply bind_inv in Hk. destruct Hk as [cdf_plus [Hcp Hk]].
  apply bind_inv in Hk. destruct Hk as [min_in [Hm Hk]].
  apply bind_inv in Hk. destruct Hk as [cdf_min [Hcm Hk]].
  apply bind_inv in Hk. destruct Hk as [cdf_delta [Hcd Hk]].
  apply bind_inv in Hk. destruct Hk as [inner [Hin Hk]].
  apply bind_inv in Hk. destruct Hk as [log_probs [Hlp Hk]].
  destruct (shape_eqb (shape log_probs) (shape x)) eqn:Hout; [|discriminate].
  injection Hk as <-. apply shape_eqb_true in Hout.
  split; [exact Hout|].
  pose proof (fits_refl (shape log_probs)) as Hs.
  rewrite Hout in Hs at 2.
  intros i Hr. rewrite <- Hout in Hr. rewrite <- bget_get by exact Hr.
  rewrite Hout in Hr.
  assert (Hgx : bget x i = get x i) by (apply bget_get; exact Hr).
  assert (Hgm : bget means i = get means i)
    by (apply bget_get; rewrite <- Hxm; exact Hr).
  assert (Hgl : bget log_scales i = get log_scales i)
    by (apply bget_get; rewrite <- Hml, <- Hxm; exact Hr).
  reads_down_all.
  reads_at i Hr.
  unfold spec_discretized. reflexivity.
Qed.

(** One step of a computation on operands of one shape. *)
Ltac same_shape_step :=
  match goal with
  | |- context [bind (map2 ?f ?a ?b) _] =>
      let c := fresh "t" in
      let E := fresh "E" in
      let S := fresh "S" in
      destruct (map2_same_shape f a b) as [c [E S]];
      [ cbn [shape tmap] in *; congruence
      | rewrite E; cbn [bind]; cbn [shape tmap] in S ]
  | |- context [bind (approx_standard_normal_cdf ?a) _] =>
      let c := fresh "t" in
      let E := fresh "E" in
      let S := fresh "S" in
      destruct (approx_cdf_ok a) as [c [E S]];
      rewrite E; cbn [bind]; cbn [shape tmap] in S
  | |- context [bind (th_where ?c ?a ?b) _] =>
      let r := fresh "t" in
      let E := fresh "E" in
      let S := fresh "S" in
      destruct (th_where_same_shape c a b) as [r [E S]];
      [ cbn [shape tmap] in *; congruence
      | cbn [shape tmap] in *; congruence
      | rewrite E; cbn [bind]; cbn [shape tmap] in S ]
  end.

(** [discretized_gaussian_log_likelihood] returns on operands of one
    shape. *)
Lemma discretized_ok (x means log_scales : Tensor R) :
  shape x = shape means -> shape means = shape log_scales ->
  exists r, discretized_gaussian_log_likelihood x means log_scales = Ok r.
Proof.
  intros Hxm Hml. unfold discretized_gaussian_log_likelihood.
  rewrite (proj2 (shape_eqb_true _ _) Hxm), (proj2 (shape_eqb_true _ _) Hml).
  cbn [andb].
  unfold th_exp, th_log, neg, clamp_min, lt_scalar, gt_scalar. cbv zeta.
  repeat same_shape_step.
  match goal with
  | |- context [shape_eqb (shape ?t) (shape x)] =>
      assert (Hout : shape t = shape x) by congruence;
      rewrite (proj2 (shape_eqb_true _ _) Hout)
  end.
  eexists; reflexivity.
Qed.

(** The assertion on the shapes. *)
Lemma discretized_assertion (x means log_scales : Tensor R) :
  ~ (shape x = shape means /\ shape means = shape log_scales) ->
  discretized_gaussian_log_likelihood x means log_scales = Err AssertionError.
Proof.
  intros Hne. unfold discretized_gaussian_log_likelihood.
  destruct (shape_eqb (shape x) (shape means)
            && shape_eqb (shape means) (shape log_scales)) eqn:Hsh;
    [|reflexivity].
  apply andb_true_iff in Hsh. rewrite !shape_eqb_true in Hsh. contradiction.
Qed.

(** [Normal.log_prob] *)
Lemma log_prob_reads (d : Normal) (value r : Tensor R) (u : list nat) :
  log_prob d value = Ok r -> fits (shape r) u = true ->
  (fits (shape value) u = true /\ fits (shape (loc d)) u = true /\
   fits (shape (scale d)) u = true) /\
  forall j, in_range u j = true ->
    bget r j = - (bget value j - bget (loc d) j) ^ 2
                 / (2 * bget (scale d) j ^ 2)
               - ln (bget (scale d) j) - ln (sqrt (2 * PI)).
Proof.
  unfold log_prob. cbv zeta. intros Hk Hs.
  apply bind_inv in Hk. destruct Hk as [_ [_ Hk]].
  apply bind_inv in Hk. destruct Hk as [c [Hc Hk]].
  apply bind_inv in Hk. destruct Hk as [q [Hq Hk]].
  apply bind_inv in Hk. destruct Hk as [t [Ht Hk]].
  injection Hk as <-.
  reads_down.
  split; [auto|].
  intros j Hr. reads_at j Hr. reflexivity.
Qed.

(** What [continuous_gaussian_log_likelihood] returns when it returns: the
    standard normal log-density of the normalized target. *)
Lemma continuous_reads (x means log_scales r : Tensor R) :
  continuous_gaussian_log_likelihood x means log_scales = Ok r ->
  (fits (shape x) (shape r) = true /\ fits (shape means) (shape r) = true /\
   fits (shape log_scales) (shape r) = true) /\
  forall i, in_range (shape r) i = true ->
    get r i = - 0.5 * ((bget x i - bget means i) * exp (- bget log_scales i)) ^ 2
              - 0.5 * ln (2 * PI).
Proof.
  unfold continuous_gaussian_log_likelihood. cbv zeta. intros Hk.
  apply bind_inv in Hk. destruct Hk as [centered_x [Hc Hk]].
  apply bind_inv in Hk. destruct Hk as [normalized_x [Hn Hk]].
  apply bind_inv in Hk. destruct Hk as [log_probs [Hl Hk]].
  injection Hk as <-.
  pose proof (fits_refl (shape log_probs)) as Hs.
  destruct (log_prob_reads _ _ _ _ Hl Hs) as [[Hfn [Hfz Hfo]] Hval].
  cbn [loc scale] in *. unfold zeros_like, ones_like in *.
  reads_down.
  split; [auto|].
  intros i Hr. rewrite <- bget_get by exact Hr.
  reads_at i Hr.
  rewrite ln_1. rewrite ln_sqrt by (pose proof PI_RGT_0; lra).
  rewrite Rminus_0_r. replace (2 * 1 ^ 2) with 2 by ring. lra.
Qed.

(** [continuous_gaussian_log_likelihood] returns on operands that expand
    to one shape. *)
Lemma continuous_ok (x means log_scales : Tensor R) (u : list nat) :
  fits (shape x) u = true -> fits (shape means) u = true ->
  fits (shape log_scales) u = true ->
  exists r, continuous_gaussian_log_likelihood x means log_scales = Ok r /\
            fits (shape r) u = true.
Proof.
  intros Hx Hm Hl.
  unfold continuous_gaussian_log_likelihood, log_prob. cbv zeta.
  cbn [loc scale].
  destruct (map2_ok Rminus x means u Hx Hm) as [c [Ec Fc]].
  rewrite Ec. cbn [bind].
  destruct (map2_ok Rmult c (th_exp (neg log_scales)) u Fc Hl) as [n [En Fn]].
  rewrite En. cbn [bind].
  assert (Hxn : fits (shape x) (shape n) = true).
  { destruct (map2_inv _ _ _ _ Ec) as [Hbc _].
    destruct (map2_inv _ _ _ _ En) as [Hbn _].
    apply (fits_trans _ (shape c)).
    - apply (broadcast_shapes_fits _ _ _ Hbc).
    - apply (broadcast_shapes_fits _ _ _ Hbn). }
  unfold validate_sample. cbn [loc].
  change (shape (zeros_like x)) with (shape x).
  rewrite (compatible_fits _ _ Hxn). cbn [bind].
  destruct (map2_ok Rminus n (zeros_like x) u Fn Hx) as [c' [Ec' Fc']].
  rewrite Ec'. cbn [bind].
  destruct (map2_ok Rdiv (neg (th_pow c' 2))
              (tmap (fun v => 2 * v) (th_pow (ones_like x) 2)) u Fc' Hx)
    as [q [Eq Fq]].
  rewrite Eq. cbn [bind].
  destruct (map2_ok Rminus q (th_log (ones_like x)) u Fq Hx) as [t [Et Ft]].
  rewrite Et. cbn [bind].
  eexists; split; [reflexivity | exact Ft].
Qed.

End Likelihood.

(** * The behaviour of the four functions *)

Import Shape ShapeFacts BroadcastFacts TensorFacts NormalKL ScalarFacts
  Likelihood.

Lemma approx_cdf_get (x r : Tensor R) :
  approx_standard_normal_cdf x = Ok r ->
  shape r = shape x /\
  forall i, in_range (shape x) i = true -> get r i = spec_cdf (get x i).
Proof.
  intros Hk.
  destruct (approx_cdf_ok x) as [r' [Hk' Hs]].
  rewrite Hk in Hk'. injection Hk' as <-.
  split; [exact Hs|].
  intros i Hr.
  destruct (approx_cdf_reads x r (shape r) Hk (fits_refl _)) as [_ Hval].
  rewrite <- Hs in Hr.
  rewrite <- (bget_get r i Hr), (Hval i Hr).
  rewrite Hs in Hr. rewrite (bget_get x i Hr). reflexivity.
Qed.

Lemma normal_kl_wf (mean1 logvar1 mean2 logvar2 : value) (r : Tensor R) :
  normal_kl mean1 logvar1 mean2 logvar2 = Ok r ->
  length (data r) = numel (shape r).
Proof.
  unfold normal_kl.
  destruct (first_tensor _) as [tensor|]; [|discriminate].
  cbv zeta. intros Hk.
  repeat (apply bind_inv in Hk; destruct Hk as [? [_ Hk]]).
  injection Hk as <-. cbn [tmap data shape].
  rewrite length_map. apply indices_length.
Qed.

(** A tensor of one element is determined by that element. *)
Lemma tensor_of_one (r : Tensor R) (v : R) :
  shape r = [1%nat] -> length (data r) = numel (shape r) ->
  get r [0%nat] = v -> r = mkTensor [1%nat] [v].
Proof.
  destruct r as [s d]. cbn [shape data]. intros -> Hlen.
  destruct d as [|e [|e' d]]; try discriminate.
  unfold get. cbn. intros ->. reflexivity.
Qed.

(** C1. On the target 0 with mean 0 and log-scale 1 the function returns
    [-0.5*log(2*pi)], the standard normal log-density of the normalized
    target, and not [-log_scales - 0.5*log(2*pi)]: the term [-log_scales]
    of the Gaussian log-density is missing from the result. *)
Theorem continuous_gaussian_log_likelihood_omits_log_scales :
  exists r,
    continuous_gaussian_log_likelihood
      sample_one sample_one (mkTensor [1%nat] [1]) = Ok r /\
    shape r = [1%nat] /\
    get r [0%nat] = - 0.5 * ln (2 * PI) /\
    get r [0%nat] <> spec_gaussian_log_density 0 0 1 /\
    spec_gaussian_log_density 0 0 1 = - 1 - 0.5 * ln (2 * PI).
Proof.
  destruct (continuous_ok sample_one sample_one (mkTensor [1%nat] [1])
              [1%nat] eq_refl eq_refl eq_refl) as [r [Hk Hf]].
  destruct (continuous_reads _ _ _ _ Hk) as [[Hx _] Hval].
  assert (Hs : shape r = [1%nat]) by (apply fits_antisym; assumption).
  rewrite Hs in Hval. specialize (Hval [0%nat] eq_refl).
  change (bget sample_one [0%nat]) with 0 in Hval.
  replace ((0 - 0) * exp (- bget (mkTensor [1%nat] [1]) [0%nat])) with 0
    in Hval by ring.
  replace (0 ^ 2) with 0 in Hval by ring.
  assert (Hspec : spec_gaussian_log_density 0 0 1 = - 1 - 0.5 * ln (2 * PI)).
  { unfold spec_gaussian_log_density. cbv zeta.
    replace ((0 - 0) * exp (- 1)) with 0 by ring.
    replace (0 ^ 2) with 0 by ring. lra. }
  exists r. repeat split; try assumption.
  - lra.
  - rewrite Hspec. lra.
Qed.

Lemma discretized_get (x means log_scales : Tensor R) :
  shape x = shape means -> shape means = shape log_scales ->
  exists r, discretized_gaussian_log_likelihood x means log_scales = Ok r /\
    shape r = shape x /\
    forall i, in_range (shape x) i = true ->
      get r i = spec_discretized (get x i) (get means i) (get log_scales i).
Proof.
  intros Hxm Hml.
  destruct (discretized_ok x means log_scales Hxm Hml) as [r Hk].
  destruct (discretized_reads _ _ _ _ Hk) as [Hs Hval].
  exists r. auto.
Qed.

(** C2. On operands of one shape [discretized_gaussian_log_likelihood]
    returns, and each element of the result is chosen in this order: where
    [x < -0.999], [log(max(cdf_plus, 1e-12))]; otherwise where [x > 0.999],
    [log(max(1 - cdf_min, 1e-12))]; otherwise
    [log(max(cdf_plus - cdf_min, 1e-12))], with [cdf_plus] and [cdf_min] the
    approximate CDF at [exp(-log_scales) * (x - means +/- 1/255)].  At
    [x = -1] the first branch is taken and at [x = 1] the second. *)
Theorem discretized_gaussian_log_likelihood_selection
  (x means log_scales : Tensor R) :
  shape x = shape means -> shape means = shape log_scales ->
  exists r, discretized_gaussian_log_likelihood x means log_scales = Ok r /\
    forall i, in_range (shape x) i = true ->
      let cdf_plus :=
        spec_cdf (exp (- get log_scales i)
                  * (get x i - get means i + 1 / 255)) in
      let cdf_min :=
        spec_cdf (exp (- get log_scales i)
                  * (get x i - get means i - 1 / 255)) in
      (get x i < -0.999 -> get r i = ln (Rmax cdf_plus 1e-12)) /\
      (~ get x i < -0.999 -> get x i > 0.999 ->
       get r i = ln (Rmax (1 - cdf_min) 1e-12)) /\
      (~ get x i < -0.999 -> ~ get x i > 0.999 ->
       get r i = ln (Rmax (cdf_plus - cdf_min) 1e-12)) /\
      (get x i = -1 -> get r i = ln (Rmax cdf_plus 1e-12)) /\
      (get x i = 1 -> get r i = ln (Rmax (1 - cdf_min) 1e-12)).
Proof.
  intros Hxm Hml.
  destruct (discretized_get x means log_scales Hxm Hml) as [r [Hk [_ Hval]]].
  exists r. split; [exact Hk|].
  intros i Hr cdf_plus cdf_min. rewrite (Hval i Hr).
  unfold spec_discretized. fold cdf_plus. fold cdf_min.
  destruct (Rltb (get x i) (-0.999)) eqn:Hlo.
  - apply Rltb_true in Hlo. repeat split; intros; try reflexivity; lra.
  - apply Rltb_false in Hlo.
    destruct (Rltb 0.999 (get x i)) eqn:Hhi.
    + apply Rltb_true in Hhi. repeat split; intros; try reflexivity; lra.
    + apply Rltb_false in Hhi. repeat split; intros; try reflexivity; lra.
Qed.

Lemma discretized_gaussian_log_likelihood_selection_witness :
  exists r,
    discretized_gaussian_log_likelihood sample_x sample_zeros sample_zeros
      = Ok r /\
    get r [0%nat]
      = ln (Rmax (spec_cdf (exp (- 0) * (-1 - 0 + 1 / 255))) 1e-12) /\
    get r [1%nat]
      = ln (Rmax (spec_cdf (exp (- 0) * (0 - 0 + 1 / 255))
                  - spec_cdf (exp (- 0) * (0 - 0 - 1 / 255))) 1e-12) /\
    get r [2%nat]
      = ln (Rmax (1 - spec_cdf (exp (- 0) * (1 - 0 - 1 / 255))) 1e-12).
Proof.
  destruct (discretized_gaussian_log_likelihood_selection
              sample_x sample_zeros sample_zeros eq_refl eq_refl)
    as [r [Hk Hsel]].
  exists r. split; [exact Hk|].
  split; [|split].
  - apply (Hsel [0%nat] eq_refl). reflexivity.
  - apply (Hsel [1%nat] eq_refl); change (get sample_x [1%nat]) with 0; lra.
  - apply (Hsel [2%nat] eq_refl). reflexivity.
Defined.


Lemma Rtrunc_small (r : R) : 0 <= r < 1 -> Rtrunc r = 0.
Proof.
  intros [Hlo Hhi]. unfold Rtrunc.
  destruct (Rle_dec 0 r) as [_|Hn]; [|contradiction].
  rewrite <- (Int_part_spec r 0); [reflexivity | split; lra].
Qed.




(** C4. [approx_standard_normal_cdf] returns a tensor of the shape of its
    argument whose elements are
    [0.5 * (1 + tanh(sqrt(2/pi) * (x + 0.044715 * x^3)))]. *)
Theorem approx_standard_normal_cdf_formula (x : Tensor R) :
  exists r, approx_standard_normal_cdf x = Ok r /\
    shape r = shape x /\
    forall i, in_range (shape x) i = true ->
      get r i = 0.5 * (1 + tanh (sqrt (2 / PI)
                                 * (get x i + 0.044715 * get x i ^ 3))).
Proof.
  destruct (approx_cdf_ok x) as [r [Hk Hs]].
  exists r. split; [exact Hk | split; [exact Hs|]].
  intros i Hr.
  destruct (approx_cdf_get x r Hk) as [_ Hval].
  rewrite (Hval i Hr). reflexivity.
Qed.

Lemma approx_standard_normal_cdf_formula_witness :
  exists r, approx_standard_normal_cdf sample_x = Ok r /\
    shape r = [3%nat] /\
    get r [2%nat]
      = 0.5 * (1 + tanh (sqrt (2 / PI) * (1 + 0.044715 * 1 ^ 3))).
Proof.
  destruct (approx_standard_normal_cdf_formula sample_x) as [r [Hk [Hs Hval]]].
  exists r. split; [exact Hk | split; [exact Hs|]].
  exact (Hval [2%nat] eq_refl).
Defined.

(** C5. [normal_kl] fails its assertion exactly when none of the four
    arguments is a tensor; four plain numbers fail it. *)
Theorem normal_kl_assertion (mean1 logvar1 mean2 logvar2 : value) :
  (normal_kl mean1 logvar1 mean2 logvar2 = Err AssertionError <->
   is_tensor mean1 = false /\ is_tensor logvar1 = false /\
   is_tensor mean2 = false /\ is_tensor logvar2 = false) /\
  normal_kl (PyFloat 0) (PyFloat 0) (PyFloat 0) (PyFloat 0)
    = Err AssertionError.
Proof.
  split; [|reflexivity].
  split.
  - intros Hk.
    destruct (existsb is_tensor [mean1; logvar1; mean2; logvar2]) eqn:Hex.
    + pose proof (normal_kl_err _ _ _ _ _ Hex Hk). discriminate.
    + simpl in Hex. rewrite !orb_false_iff in Hex. tauto.
  - intros [H1 [H2 [H3 H4]]].
    destruct mean1, logvar1, mean2, logvar2; try discriminate. reflexivity.
Qed.

(** C6. [discretized_gaussian_log_likelihood] fails its assertion whenever
    the three shapes are not the same, also when they would broadcast; on
    operands of one shape it returns a tensor of that shape.  A target of
    shape [4] with means of shape [3] fails. *)
Theorem discretized_shape_precondition (x means log_scales : Tensor R) :
  (~ (shape x = shape means /\ shape means = shape log_scales) ->
   discretized_gaussian_log_likelihood x means log_scales
     = Err AssertionError) /\
  (shape x = shape means -> shape means = shape log_scales ->
   exists r, discretized_gaussian_log_likelihood x means log_scales = Ok r /\
             shape r = shape x) /\
  (shape x = [4%nat] -> shape means = [3%nat] ->
   discretized_gaussian_log_likelihood x means log_scales
     = Err AssertionError).
Proof.
  split; [apply discretized_assertion | split].
  - intros Hxm Hml.
    destruct (discretized_get x means log_scales Hxm Hml) as [r [Hk [Hs _]]].
    exists r. auto.
  - intros Hx Hm. apply discretized_assertion.
    rewrite Hx, Hm. intros [Hne _]. discriminate.
Qed.

Lemma discretized_shape_precondition_witness :
  discretized_gaussian_log_likelihood sample_four sample_three sample_four
    = Err AssertionError /\
  discretized_gaussian_log_likelihood sample_four sample_one sample_four
    = Err AssertionError /\
  exists r,
    discretized_gaussian_log_likelihood sample_x sample_zeros sample_zeros
      = Ok r /\ shape r = [3%nat].
Proof.
  split; [|split].
  - apply (proj2 (proj2 (discretized_shape_precondition
                           sample_four sample_three sample_four)));
      reflexivity.
  - apply (proj1 (discretized_shape_precondition
                    sample_four sample_one sample_four)).
    simpl. intros [Hne _]. discriminate.
  - apply (proj1 (proj2 (discretized_shape_precondition
                           sample_x sample_zeros sample_zeros)));
      reflexivity.
Defined.

(** C7 (as amended). In real arithmetic: [normal_kl(m, lv, m, lv)] is 0
    at every element for tensors [m] and [lv] of one shape; every element
    of every result of [normal_kl] is non-negative; and
    [normal_kl(0, 0, tensor([0]), 0)] is [tensor([0.])]. *)
Theorem normal_kl_zero_and_nonneg :
  (forall (d d' : dtype) (m lv : Tensor R), shape m = shape lv ->
   exists r,
     normal_kl (Tens d m) (Tens d' lv) (Tens d m) (Tens d' lv) = Ok r /\
     shape r = shape m /\
     forall i, in_range (shape m) i = true -> get r i = 0) /\
  (forall (mean1 logvar1 mean2 logvar2 : value) (r : Tensor R),
   normal_kl mean1 logvar1 mean2 logvar2 = Ok r ->
   forall i, in_range (shape r) i = true -> 0 <= get r i) /\
  normal_kl (PyFloat 0) (PyFloat 0) (Tens Int64 sample_one) (PyFloat 0)
    = Ok (mkTensor [1%nat] [0]).
Proof.
  split; [|split].
  - intros d d' m lv Hs.
    destruct (normal_kl_shape (Tens d m) (Tens d' lv) (Tens d m) (Tens d' lv)
                (shape m)) as [r [Hk Hr]].
    + reflexivity.
    + simpl. rewrite <- Hs.
      rewrite broadcast_shapes_nil_r, !broadcast_shapes_same. reflexivity.
    + exists r. split; [exact Hk | split; [exact Hr|]].
      intros i Hi. rewrite <- Hr in Hi.
      destruct (normal_kl_reads_forced _ _ _ _ _ Hk) as [tensor [_ [_ Hval]]].
      rewrite (Hval i Hi). apply spec_kl_same.
  - intros mean1 logvar1 mean2 logvar2 r Hk i Hi.
    destruct (normal_kl_reads_forced _ _ _ _ _ Hk) as [tensor [_ [_ Hval]]].
    rewrite (Hval i Hi). apply spec_kl_nonneg.
  - destruct (normal_kl_shape (PyFloat 0) (PyFloat 0) (Tens Int64 sample_one)
                (PyFloat 0) [1%nat] eq_refl eq_refl) as [r [Hk Hr]].
    rewrite Hk. f_equal.
    apply tensor_of_one; [exact Hr | apply (normal_kl_wf _ _ _ _ _ Hk) |].
    destruct (normal_kl_reads_forced _ _ _ _ _ Hk) as [tensor [Hft [_ Hval]]].
    injection Hft as <-.
    rewrite Hr in Hval. rewrite (Hval [0%nat] eq_refl).
    cbn [fst forced_at]. rewrite (Rtrunc_small 0) by lra.
    change (vget (PyFloat 0) [0%nat]) with 0.
    change (vget (Tens Int64 sample_one) [0%nat]) with 0.
    apply spec_kl_same.
Qed.

Lemma normal_kl_zero_and_nonneg_witness :
  (exists r,
     normal_kl (Tens Float32 sample_row) (Tens Float32 sample_x)
       (Tens Float32 sample_row) (Tens Float32 sample_x) = Ok r /\
     shape r = [3%nat] /\ get r [1%nat] = 0) /\
  (forall r,
     normal_kl (Tens Float32 sample_column) (PyFloat 0)
       (Tens Float32 sample_row) (PyFloat 1) = Ok r ->
     in_range (shape r) [1%nat; 2%nat] = true ->
     0 <= get r [1%nat; 2%nat]).
Proof.
  split.
  - destruct (proj1 normal_kl_zero_and_nonneg Float32 Float32
                sample_row sample_x eq_refl) as [r [Hk [Hs Hval]]].
    exists r. split; [exact Hk | split; [exact Hs|]].
    exact (Hval [1%nat] eq_refl).
  - intros r Hk Hi.
    exact (proj1 (proj2 normal_kl_zero_and_nonneg)
             (Tens Float32 sample_column) (PyFloat 0)
             (Tens Float32 sample_row) (PyFloat 1)
             r Hk [1%nat; 2%nat] Hi).
Defined.

(** C8. [approx_standard_normal_cdf] is non-decreasing: an element no
    larger than another is sent to a value no larger; and 0 is sent to
    0.5. *)
Theorem approx_standard_normal_cdf_monotone (a b : Tensor R) :
  exists ra rb,
    approx_standard_normal_cdf a = Ok ra /\
    approx_standard_normal_cdf b = Ok rb /\
    (forall i j, in_range (shape a) i = true -> in_range (shape b) j = true ->
       get a i <= get b j -> get ra i <= get rb j) /\
    (forall i, in_range (shape a) i = true -> get a i = 0 ->
       get ra i = 0.5).
Proof.
  destruct (approx_cdf_ok a) as [ra [Ha _]].
  destruct (approx_cdf_ok b) as [rb [Hb _]].
  destruct (approx_cdf_get a ra Ha) as [_ Hva].
  destruct (approx_cdf_get b rb Hb) as [_ Hvb].
  exists ra, rb. repeat split; try assumption.
  - intros i j Hi Hj Hle. rewrite (Hva i Hi), (Hvb j Hj).
    apply spec_cdf_le, Hle.
  - intros i Hi H0. rewrite (Hva i Hi), H0. apply spec_cdf_0.
Qed.

Lemma approx_standard_normal_cdf_monotone_witness :
  exists ra rb,
    approx_standard_normal_cdf sample_x = Ok ra /\
    approx_standard_normal_cdf sample_row = Ok rb /\
    get ra [0%nat] <= get rb [2%nat] /\
    get ra [1%nat] = 0.5.
Proof.
  destruct (approx_standard_normal_cdf_monotone sample_x sample_row)
    as [ra [rb [Ha [Hb [Hmono Hzero]]]]].
  exists ra, rb. split; [exact Ha | split; [exact Hb | split]].
  - apply (Hmono [0%nat] [2%nat] eq_refl eq_refl).
    change (get sample_x [0%nat]) with (-1).
    change (get sample_row [2%nat]) with 2. lra.
  - apply (Hzero [1%nat] eq_refl). reflexivity.
Defined.





(** * Further properties of the four functions *)

(** ** Scalar facts *)

Lemma tanh_opp (x : R) : tanh (- x) = - tanh x.
Proof.
  rewrite !tanh_exp, Ropp_involutive.
  pose proof (exp_pos x). pose proof (exp_pos (- x)).
  field. lra.
Qed.

Lemma tanh_lt (x y : R) : x < y -> tanh x < tanh y.
Proof.
  intros Hxy. rewrite !tanh_exp.
  pose proof (exp_pos x) as Ha. pose proof (exp_pos (- x)) as Hb.
  pose proof (exp_pos y) as Hc. pose proof (exp_pos (- y)) as Hd.
  assert (Hac : exp x < exp y) by (apply exp_increasing; exact Hxy).
  assert (Hdb : exp (- y) < exp (- x)) by (apply exp_increasing; lra).
  set (a := exp x) in *. set (b := exp (- x)) in *.
  set (c := exp y) in *. set (d := exp (- y)) in *.
  apply Rmult_lt_reg_r with ((a + b) * (c + d)); [nra|].
  replace ((a - b) / (a + b) * ((a + b) * (c + d)))
    with ((a - b) * (c + d)) by (field; lra).
  replace ((c - d) / (c + d) * ((a + b) * (c + d)))
    with ((c - d) * (a + b)) by (field; lra).
  nra.
Qed.

Lemma cubic_lt (x y : R) :
  x < y -> x + 0.044715 * x ^ 3 < y + 0.044715 * y ^ 3.
Proof.
  intros Hxy.
  assert (H : 0 <= x * x + x * y + y * y) by nra.
  assert (E : y + 0.044715 * y ^ 3 - (x + 0.044715 * x ^ 3)
              = (y - x) * (1 + 0.044715 * (x * x + x * y + y * y))) by ring.
  assert (0 < (y - x) * (1 + 0.044715 * (x * x + x * y + y * y))) by
    (apply Rmult_lt_0_compat; lra).
  lra.
Qed.

Lemma sqrt_2_PI_pos : 0 < sqrt (2 / PI).
Proof.
  apply sqrt_lt_R0. apply Rdiv_lt_0_compat; [lra | apply PI_RGT_0].
Qed.

Lemma spec_cdf_lt (x y : R) : x < y -> spec_cdf x < spec_cdf y.
Proof.
  intros Hxy. unfold spec_cdf.
  pose proof (cubic_lt x y Hxy) as Hc.
  pose proof sqrt_2_PI_pos as Hs.
  assert (Hin : sqrt (2 / PI) * (x + 0.044715 * x ^ 3)
                < sqrt (2 / PI) * (y + 0.044715 * y ^ 3))
    by (apply Rmult_lt_compat_l; assumption).
  pose proof (tanh_lt _ _ Hin). lra.
Qed.

Lemma spec_cdf_strict_bounds (x : R) : 0 < spec_cdf x < 1.
Proof.
  unfold spec_cdf.
  pose proof (tanh_bounds (sqrt (2 / PI) * (x + 0.044715 * x ^ 3))). lra.
Qed.

Lemma spec_cdf_opp (x : R) : spec_cdf (- x) = 1 - spec_cdf x.
Proof.
  unfold spec_cdf.
  replace (sqrt (2 / PI) * (- x + 0.044715 * (- x) ^ 3))
    with (- (sqrt (2 / PI) * (x + 0.044715 * x ^ 3))) by ring.
  rewrite tanh_opp. lra.
Qed.


Lemma spec_discretized_mirror (x means log_scales : R) :
  spec_discretized (- x) (- means) log_scales
  = spec_discretized x means log_scales.
Proof.
  unfold spec_discretized.
  replace (exp (- log_scales) * (- x - - means + 1 / 255))
    with (- (exp (- log_scales) * (x - means - 1 / 255))) by ring.
  replace (exp (- log_scales) * (- x - - means - 1 / 255))
    with (- (exp (- log_scales) * (x - means + 1 / 255))) by ring.
  rewrite !spec_cdf_opp.
  set (cp := spec_cdf (exp (- log_scales) * (x - means + 1 / 255))).
  set (cm := spec_cdf (exp (- log_scales) * (x - means - 1 / 255))).
  destruct (Rltb (- x) (-0.999)) eqn:H1; destruct (Rltb x (-0.999)) eqn:H2;
    destruct (Rltb 0.999 (- x)) eqn:H3; destruct (Rltb 0.999 x) eqn:H4;
    rewrite ?Rltb_true, ?Rltb_false in *; try lra;
    f_equal; f_equal; lra.
Qed.

(** ** Reading the result of a unary operation *)

Lemma get_tmap (A B : Type) `{Default A} `{Default B}
  (f : A -> B) (t : Tensor A) (i : list nat) :
  in_range (shape t) i = true -> get (tmap f t) i = f (get t i).
Proof. intros Hr. unfold tmap. rewrite get_tabulate by exact Hr. reflexivity. Qed.

(** ** [normal_kl]: when it returns *)

Lemma normal_kl_broadcast (mean1 logvar1 mean2 logvar2 : value)
  (r : Tensor R) :
  normal_kl mean1 logvar1 mean2 logvar2 = Ok r ->
  broadcast_all [vshape mean1; vshape logvar1; vshape mean2; vshape logvar2]
    = Some (shape r).
Proof.
  intros Hk.
  destruct (normal_kl_fits _ _ _ _ _ Hk) as [F1 [F2 [F3 F4]]].
  destruct (broadcast_all_least
              [vshape mean1; vshape logvar1; vshape mean2; vshape logvar2]
              (shape r)) as [s [Hs Hf]].
  { repeat constructor; assumption. }
  rewrite Hs. f_equal.
  apply fits_antisym; [exact Hf|].
  pose proof (broadcast_all_fits _ _ Hs) as Hall.
  inversion Hall as [|? ? Hm1 Hall1]; subst.
  inversion Hall1 as [|? ? Hl1 Hall2]; subst.
  inversion Hall2 as [|? ? Hm2 Hall3]; subst.
  inversion Hall3 as [|? ? Hl2 _]; subst.
  assert (Hex : existsb is_tensor [mean1; logvar1; mean2; logvar2] = true).
  { destruct (existsb is_tensor [mean1; logvar1; mean2; logvar2]) eqn:Hex;
      [reflexivity|].
    simpl in Hex. rewrite !orb_false_iff in Hex.
    destruct Hex as [H1 [H2 [H3 [H4 _]]]].
    destruct mean1, logvar1, mean2, logvar2; discriminate. }
  destruct (normal_kl_ok mean1 logvar1 mean2 logvar2 s Hex Hm1 Hl1 Hm2 Hl2)
    as [r' [Hk' Hf']].
  rewrite Hk in Hk'. injection Hk' as <-. exact Hf'.
Qed.

(** X1. With a tensor among its arguments, [normal_kl] returns exactly when
    the four arguments broadcast: if they broadcast to [s] it returns a
    tensor of shape [s], a result it returns has the broadcast shape, and
    when they do not broadcast it fails with the broadcasting error. *)
Theorem normal_kl_returns_iff_broadcast
  (mean1 logvar1 mean2 logvar2 : value) :
  existsb is_tensor [mean1; logvar1; mean2; logvar2] = true ->
  (forall s,
     broadcast_all
       [vshape mean1; vshape logvar1; vshape mean2; vshape logvar2]
     = Some s ->
     exists r, normal_kl mean1 logvar1 mean2 logvar2 = Ok r /\
               shape r = s) /\
  (forall r, normal_kl mean1 logvar1 mean2 logvar2 = Ok r ->
     broadcast_all
       [vshape mean1; vshape logvar1; vshape mean2; vshape logvar2]
     = Some (shape r)) /\
  (broadcast_all [vshape mean1; vshape logvar1; vshape mean2; vshape logvar2]
   = None <->
   normal_kl mean1 logvar1 mean2 logvar2 = Err RuntimeError).
Proof.
  intros Hex.
  split; [intros s Hb; apply (normal_kl_shape _ _ _ _ s Hex Hb)|].
  split; [intros r; apply normal_kl_broadcast|].
  split.
  - intros Hnone.
    destruct (normal_kl mean1 logvar1 mean2 logvar2) as [r|e] eqn:Hk.
    + apply normal_kl_broadcast in Hk. congruence.
    + rewrite (normal_kl_err _ _ _ _ _ Hex Hk). reflexivity.
  - intros Herr.
    destruct (broadcast_all
                [vshape mean1; vshape logvar1; vshape mean2; vshape logvar2])
      as [s|] eqn:Hb; [|reflexivity].
    destruct (normal_kl_shape _ _ _ _ s Hex Hb) as [r [Hk _]]. congruence.
Qed.

Lemma normal_kl_returns_iff_broadcast_witness :
  (exists r,
     normal_kl (Tens Float32 sample_column) (PyFloat 0)
       (Tens Int64 sample_row) (PyFloat 0) = Ok r /\
     shape r = [2%nat; 3%nat]) /\
  normal_kl (Tens Float32 sample_four) (PyFloat 0)
    (Tens Float32 sample_three) (PyFloat 0) = Err RuntimeError.
Proof.
  split.
  - apply (proj1 (normal_kl_returns_iff_broadcast
                    (Tens Float32 sample_column) (PyFloat 0)
                    (Tens Int64 sample_row) (PyFloat 0) eq_refl)).
    reflexivity.
  - apply (proj2 (proj2 (normal_kl_returns_iff_broadcast
                           (Tens Float32 sample_four) (PyFloat 0)
                           (Tens Float32 sample_three) (PyFloat 0) eq_refl))).
    reflexivity.
Defined.





(** ** [approx_standard_normal_cdf]: symmetry and strictness *)

(** X4. The approximate CDF has the symmetry of the normal CDF: at [-x]
    it is one minus its value at [x]. *)
Theorem approx_standard_normal_cdf_reflection (x : Tensor R) :
  exists r r',
    approx_standard_normal_cdf x = Ok r /\
    approx_standard_normal_cdf (neg x) = Ok r' /\
    shape r' = shape r /\
    forall i, in_range (shape x) i = true -> get r' i = 1 - get r i.
Proof.
  destruct (approx_cdf_ok x) as [r [Hk Hs]].
  destruct (approx_cdf_ok (neg x)) as [r' [Hk' Hs']].
  destruct (approx_cdf_get x r Hk) as [_ Hval].
  destruct (approx_cdf_get (neg x) r' Hk') as [_ Hval'].
  exists r, r'. split; [exact Hk | split; [exact Hk' | split]].
  - rewrite Hs, Hs'. reflexivity.
  - intros i Hr. rewrite (Hval i Hr), (Hval' i Hr).
    unfold neg. rewrite (get_tmap _ _ Ropp x i Hr). apply spec_cdf_opp.
Qed.

Lemma approx_standard_normal_cdf_reflection_witness :
  exists r r',
    approx_standard_normal_cdf sample_x = Ok r /\
    approx_standard_normal_cdf (neg sample_x) = Ok r' /\
    get r' [2%nat] = 1 - get r [2%nat].
Proof.
  destruct (approx_standard_normal_cdf_reflection sample_x)
    as [r [r' [Hk [Hk' [_ Hval]]]]].
  exists r, r'. split; [exact Hk | split; [exact Hk'|]].
  exact (Hval [2%nat] eq_refl).
Defined.

(** X5. The approximate CDF is strictly increasing, and its values lie
    strictly between 0 and 1. *)
Theorem approx_standard_normal_cdf_strict (a b : Tensor R) :
  exists ra rb,
    approx_standard_normal_cdf a = Ok ra /\
    approx_standard_normal_cdf b = Ok rb /\
    (forall i j, in_range (shape a) i = true -> in_range (shape b) j = true ->
       get a i < get b j -> get ra i < get rb j) /\
    (forall i, in_range (shape a) i = true -> 0 < get ra i < 1).
Proof.
  destruct (approx_cdf_ok a) as [ra [Ha _]].
  destruct (approx_cdf_ok b) as [rb [Hb _]].
  destruct (approx_cdf_get a ra Ha) as [_ Hva].
  destruct (approx_cdf_get b rb Hb) as [_ Hvb].
  exists ra, rb. split; [exact Ha | split; [exact Hb | split]].
  - intros i j Hi Hj Hlt. rewrite (Hva i Hi), (Hvb j Hj).
    apply spec_cdf_lt, Hlt.
  - intros i Hi. rewrite (Hva i Hi). apply spec_cdf_strict_bounds.
Qed.

Lemma approx_standard_normal_cdf_strict_witness :
  exists ra rb,
    approx_standard_normal_cdf sample_x = Ok ra /\
    approx_standard_normal_cdf sample_row = Ok rb /\
    get ra [1%nat] < get rb [1%nat] /\ 0 < get ra [0%nat] < 1.
Proof.
  destruct (approx_standard_normal_cdf_strict sample_x sample_row)
    as [ra [rb [Ha [Hb [Hlt Hbnd]]]]].
  exists ra, rb. split; [exact Ha | split; [exact Hb | split]].
  - apply (Hlt [1%nat] [1%nat] eq_refl eq_refl).
    change (get sample_x [1%nat]) with 0.
    change (get sample_row [1%nat]) with 1. lra.
  - exact (Hbnd [0%nat] eq_refl).
Defined.

(** ** [continuous_gaussian_log_likelihood]: broadcasting and peak *)








(** ** [discretized_gaussian_log_likelihood]: mirror symmetry *)

(** X8. Negating the targets and the means leaves the result of
    [discretized_gaussian_log_likelihood] unchanged: the lowest and the
    highest bin are treated alike. *)
Theorem discretized_gaussian_log_likelihood_mirror
  (x means log_scales : Tensor R) :
  shape x = shape means -> shape means = shape log_scales ->
  exists r r',
    discretized_gaussian_log_likelihood x means log_scales = Ok r /\
    discretized_gaussian_log_likelihood (neg x) (neg means) log_scales
      = Ok r' /\
    shape r' = shape r /\
    forall i, in_range (shape x) i = true -> get r' i = get r i.
Proof.
  intros Hxm Hml.
  destruct (discretized_get x means log_scales Hxm Hml) as [r [Hk [Hs Hval]]].
  destruct (discretized_get (neg x) (neg means) log_scales Hxm Hml)
    as [r' [Hk' [Hs' Hval']]].
  exists r, r'. split; [exact Hk | split; [exact Hk' | split]].
  - rewrite Hs, Hs'. reflexivity.
  - intros i Hr. rewrite (Hval i Hr), (Hval' i Hr).
    unfold neg. rewrite (get_tmap _ _ Ropp x i Hr).
    rewrite (get_tmap _ _ Ropp means i) by (rewrite <- Hxm; exact Hr).
    apply spec_discretized_mirror.
Qed.

Lemma discretized_gaussian_log_likelihood_mirror_witness :
  exists r r',
    discretized_gaussian_log_likelihood sample_x sample_row sample_zeros
      = Ok r /\
    discretized_gaussian_log_likelihood (neg sample_x) (neg sample_row)
      sample_zeros = Ok r' /\
    get r' [0%nat] = get r [0%nat].
Proof.
  destruct (discretized_gaussian_log_likelihood_mirror
              sample_x sample_row sample_zeros eq_refl eq_refl)
    as [r [r' [Hk [Hk' [_ Hval]]]]].
  exists r, r'. split; [exact Hk | split; [exact Hk'|]].
  exact (Hval [0%nat] eq_refl).
Defined.

(** ** [discretized_gaussian_log_likelihood]: the 256 bins *)

Lemma get_full (s : list nat) (v : R) (i : list nat) :
  in_range s i = true -> get (full s v) i = v.
Proof. intros Hr. unfold full. rewrite get_tabulate by exact Hr. reflexivity. Qed.

Lemma get_all_pixels (k : nat) :
  (k < 256)%nat -> get all_pixels [k] = pixel k.
Proof.
  intros Hk. unfold get, all_pixels. cbn [shape data offset numel fold_right].
  replace (k * 1 + 0)%nat with k by lia.
  rewrite (nth_indep _ _ (pixel 0)) by (rewrite length_map, length_seq; exact Hk).
  rewrite (map_nth pixel). rewrite seq_nth by exact Hk. reflexivity.
Qed.

(** The upper edge of the bin of [k] is the lower edge of the bin of
    [k + 1]. *)
Lemma pixel_succ (k : nat) : pixel k + 1 / 255 = pixel (S k) - 1 / 255.
Proof. unfold pixel. rewrite S_INR. lra. Qed.

Lemma pixel_0 : pixel 0 = -1.
Proof. unfold pixel. simpl INR. lra. Qed.

Lemma INR_254 : INR 254 = 254.
Proof. rewrite INR_IZR_INZ. reflexivity. Qed.

Lemma pixel_255 : pixel 255 = 1.
Proof.
  unfold pixel. change 255%nat with (S 254). rewrite S_INR, INR_254. lra.
Qed.

Lemma pixel_inner (k : nat) :
  (1 <= k <= 254)%nat -> -0.999 <= pixel k <= 0.999.
Proof.
  intros [Hlo Hhi]. unfold pixel.
  apply le_INR in Hlo. apply le_INR in Hhi.
  rewrite INR_254 in Hhi. simpl INR in Hlo. lra.
Qed.

Section Bins.

Variables mu log_scale : R.

(** The approximate CDF at the lower edge of the bin of [k]. *)
Let edge (k : nat) : R :=
  spec_cdf (exp (- log_scale) * (pixel k - mu - 1 / 255)).

(** The probability the result assigns to the value [k]. *)
Let prob (k : nat) : R := exp (spec_discretized (pixel k) mu log_scale).

Lemma edge_le (k : nat) : edge k <= edge (S k).
Proof.
  unfold edge. apply spec_cdf_le.
  pose proof (exp_pos (- log_scale)) as He.
  apply Rmult_le_compat_l; [lra|].
  pose proof (pixel_succ k). lra.
Qed.

Lemma edge_bounds (k : nat) : 0 <= edge k <= 1.
Proof. apply spec_cdf_bounds. Qed.

Lemma exp_ln_floor (v : R) : exp (ln (Rmax v 1e-12)) = Rmax v 1e-12.
Proof.
  apply exp_ln. apply Rlt_le_trans with 1e-12; [lra | apply Rmax_r].
Qed.

Lemma floor_bounds (v : R) : 0 <= v -> v <= Rmax v 1e-12 <= v + 1e-12.
Proof.
  intros Hv. split; [apply Rmax_l | apply Rmax_lub; lra].
Qed.

Lemma prob_first : prob 0 = Rmax (edge 1) 1e-12.
Proof.
  unfold prob, spec_discretized, edge.
  assert (Hlo : Rltb (pixel 0) (-0.999) = true)
    by (apply Rltb_true; rewrite pixel_0; lra).
  rewrite Hlo, exp_ln_floor.
  replace (pixel 0 - mu + 1 / 255) with (pixel 1 - mu - 1 / 255)
    by (pose proof (pixel_succ 0); lra).
  reflexivity.
Qed.

Lemma prob_last : prob 255 = Rmax (1 - edge 255) 1e-12.
Proof.
  unfold prob, spec_discretized, edge.
  assert (Hlo : Rltb (pixel 255) (-0.999) = false)
    by (apply Rltb_false; rewrite pixel_255; lra).
  assert (Hhi : Rltb 0.999 (pixel 255) = true)
    by (apply Rltb_true; rewrite pixel_255; lra).
  rewrite Hlo, Hhi, exp_ln_floor. reflexivity.
Qed.

Lemma prob_inner (k : nat) :
  (1 <= k <= 254)%nat -> prob k = Rmax (edge (S k) - edge k) 1e-12.
Proof.
  intros Hk. pose proof (pixel_inner k Hk) as [Hlo Hhi].
  unfold prob, spec_discretized, edge.
  assert (H1 : Rltb (pixel k) (-0.999) = false) by (apply Rltb_false; lra).
  assert (H2 : Rltb 0.999 (pixel k) = false) by (apply Rltb_false; lra).
  rewrite H1, H2, exp_ln_floor.
  replace (pixel k - mu + 1 / 255) with (pixel (S k) - mu - 1 / 255)
    by (pose proof (pixel_succ k); lra).
  reflexivity.
Qed.

Lemma sum_over_app (l l' : list nat) (f : nat -> R) :
  sum_over (l ++ l') f = sum_over l f + sum_over l' f.
Proof.
  unfold sum_over. induction l as [|k l IH]; simpl; [lra|].
  rewrite IH. lra.
Qed.

Lemma sum_over_one (k : nat) (f : nat -> R) : sum_over [k] f = f k.
Proof. unfold sum_over. simpl. lra. Qed.

Lemma sum_over_le (l : list nat) (f g : nat -> R) :
  (forall k, In k l -> f k <= g k) -> sum_over l f <= sum_over l g.
Proof.
  unfold sum_over. induction l as [|k l IH]; intros Hle; simpl; [lra|].
  pose proof (Hle k (or_introl eq_refl)).
  assert (fold_right Rplus 0 (map f l) <= fold_right Rplus 0 (map g l))
    by (apply IH; intros; apply Hle; right; assumption).
  lra.
Qed.

Lemma sum_over_ext (l : list nat) (f g : nat -> R) :
  (forall k, In k l -> f k = g k) -> sum_over l f = sum_over l g.
Proof.
  intros Heq. unfold sum_over. f_equal. apply map_ext_in. exact Heq.
Qed.

Lemma sum_over_shift (l : list nat) (f : nat -> R) (c : R) :
  sum_over l (fun k => f k + c) = sum_over l f + INR (length l) * c.
Proof.
  unfold sum_over. induction l as [|k l IH]; [simpl; lra|].
  cbn [map fold_right length]. rewrite IH, S_INR. lra.
Qed.

(** The differences of consecutive edges add up to the difference of the
    outer edges. *)
Lemma sum_over_edges (a n : nat) :
  sum_over (seq a n) (fun k => edge (S k) - edge k)
  = edge (a + n) - edge a.
Proof.
  revert a. induction n as [|n IH]; intros a.
  - unfold sum_over. simpl. rewrite Nat.add_0_r. lra.
  - unfold sum_over in *. cbn [seq map fold_right]. rewrite IH.
    replace (S a + n)%nat with (a + S n)%nat by lia. lra.
Qed.

(** The 256 probabilities add up to 1, up to the floor of each. *)
Lemma prob_total :
  1 <= sum_over (seq 0 256) prob <= 1 + 256 * 1e-12.
Proof.
  change 256%nat with (1 + (254 + 1))%nat.
  rewrite (seq_app 1 (254 + 1) 0), (seq_app 254 1 (0 + 1)).
  rewrite !sum_over_app.
  change (seq 0 1) with [0%nat]. change (seq (0 + 1 + 254) 1) with [255%nat].
  change (0 + 1)%nat with 1%nat.
  rewrite !sum_over_one, prob_first, prob_last.
  pose proof (edge_bounds 1) as H1. pose proof (edge_bounds 255) as H255.
  pose proof (floor_bounds (edge 1) (proj1 H1)) as Hf.
  assert (Hl0 : 0 <= 1 - edge 255) by lra.
  pose proof (floor_bounds (1 - edge 255) Hl0) as Hl.
  pose proof (sum_over_edges 1 254) as Htel.
  change (1 + 254)%nat with 255%nat in Htel.
  assert (Hmid : forall k, In k (seq 1 254) ->
            edge (S k) - edge k <= prob k <= (edge (S k) - edge k) + 1e-12).
  { intros k Hin. apply in_seq in Hin.
    rewrite prob_inner by lia.
    apply floor_bounds. pose proof (edge_le k). lra. }
  assert (Hlow : sum_over (seq 1 254) (fun k => edge (S k) - edge k)
                 <= sum_over (seq 1 254) prob)
    by (apply sum_over_le; intros k Hin; apply (Hmid k Hin)).
  assert (Hupp : sum_over (seq 1 254) prob
                 <= sum_over (seq 1 254)
                      (fun k => (edge (S k) - edge k) + 1e-12))
    by (apply sum_over_le; intros k Hin; apply (Hmid k Hin)).
  rewrite sum_over_shift, length_seq, INR_254 in Hupp.
  lra.
Qed.

End Bins.

(** X9. Over the 256 values of a pixel, for any mean and log-scale, the
    probabilities [exp] of the results of
    [discretized_gaussian_log_likelihood] add up to 1 up to the floor:
    the sum lies between 1 and [1 + 256 * 1e-12]. *)
Theorem discretized_gaussian_log_likelihood_normalized (mu log_scale : R) :
  exists r,
    discretized_gaussian_log_likelihood all_pixels
      (full [256%nat] mu) (full [256%nat] log_scale) = Ok r /\
    1 <= sum_over (seq 0 256) (fun k => exp (get r [k]))
      <= 1 + 256 * 1e-12.
Proof.
  destruct (discretized_get all_pixels (full [256%nat] mu)
              (full [256%nat] log_scale) eq_refl eq_refl)
    as [r [Hk [_ Hval]]].
  exists r. split; [exact Hk|].
  rewrite (sum_over_ext (seq 0 256) (fun k => exp (get r [k]))
             (fun k => exp (spec_discretized (pixel k) mu log_scale))).
  - apply prob_total.
  - intros k Hin. apply in_seq in Hin.
    assert (Hr : in_range (shape all_pixels) [k] = true).
    { cbn [all_pixels shape in_range]. rewrite andb_true_r.
      apply Nat.ltb_lt. lia. }
    rewrite (Hval [k] Hr).
    rewrite get_all_pixels by lia.
    rewrite !get_full by exact Hr. reflexivity.
Qed.

(** * The functions within the range of the floating-point format *)

Module FloatRange.
Import Shape ShapeFacts BroadcastFacts TensorFacts NormalKL ScalarFacts
  Likelihood.

(** ** The scalar operations *)

Lemma max_float_ge_1 : 1 <= max_float.
Proof.
  unfold max_float.
  assert (H23 : 1 <= 2 ^ 23) by (apply pow_R1_Rle; lra).
  assert (H127 : 1 <= 2 ^ 127) by (apply pow_R1_Rle; lra).
  assert (Hinv : / 2 ^ 23 <= 1).
  { rewrite <- Rinv_1. apply Rinv_le_contravar; lra. }
  nra.
Qed.

Lemma max_float_lt : max_float < 2 ^ 128.
Proof.
  unfold max_float. change (2 ^ 128) with (2 * 2 ^ 127).
  assert (H127 : 0 < 2 ^ 127) by (apply pow_lt; lra).
  assert (Hinv : 0 < / 2 ^ 23) by (apply Rinv_0_lt_compat, pow_lt; lra).
  nra.
Qed.

Lemma rnd_fin (r : R) : - max_float <= r <= max_float -> rnd r = Fin r.
Proof.
  intros [Hlo Hhi]. unfold rnd.
  destruct (Rlt_dec max_float r); [lra|].
  destruct (Rlt_dec r (- max_float)); [lra | reflexivity].
Qed.

Lemma rnd_small (r : R) : -1 <= r <= 1 -> rnd r = Fin r.
Proof. intros H. apply rnd_fin. pose proof max_float_ge_1. lra. Qed.

Lemma rnd_overflow (r : R) : max_float < r -> rnd r = PInf.
Proof.
  intros H. unfold rnd. destruct (Rlt_dec max_float r); [reflexivity | lra].
Qed.

Lemma exp_INR (n : nat) (x : R) : exp (INR n * x) = exp x ^ n.
Proof.
  induction n as [|n IH].
  - simpl. rewrite Rmult_0_l. apply exp_0.
  - rewrite S_INR, Rmult_plus_distr_r, Rmult_1_l, exp_plus, IH. simpl. ring.
Qed.

(** [exp(1000)] is beyond the largest float. *)
Lemma exp_1000_overflows : max_float < exp 1000.
Proof.
  apply Rlt_le_trans with (2 ^ 128); [apply max_float_lt|].
  replace 1000 with (INR 32 * 31.25)
    by (rewrite INR_IZR_INZ; simpl IZR; lra).
  rewrite exp_INR.
  apply Rle_trans with (2 ^ 160).
  - apply Rle_pow; [lra | lia].
  - change 160%nat with (5 * 32)%nat. rewrite pow_mult.
    apply pow_incr. split; [apply pow_le; lra|].
    pose proof (exp_ineq1_le 31.25). simpl. lra.
Qed.

Lemma fl_exp_overflow : fl_exp (fl_neg (Fin (-1000))) = PInf.
Proof.
  cbn [fl_neg fl_exp]. apply rnd_overflow.
  replace (- -1000) with 1000 by lra. apply exp_1000_overflows.
Qed.

Lemma fl_mul_inf_zero (positive : bool) (x : R) :
  x = 0 -> fl_mul_inf positive x = NaN.
Proof.
  intros Hx. unfold fl_mul_inf.
  destruct (Req_dec_T x 0); [reflexivity | contradiction].
Qed.

Lemma fl_add_nan_r (a : fl) : fl_add a NaN = NaN.
Proof. destruct a; reflexivity. Qed.

Lemma fl_le_nan_r (a : fl) : ~ fl_le a NaN.
Proof. destruct a; simpl; tauto. Qed.


(** ** The tensor operations *)


Lemma th_where_fl_same_shape (c : Tensor bool) (a b : Tensor fl) :
  shape c = shape a -> shape b = shape a ->
  exists r, th_where_fl c a b = Ok r /\ shape r = shape a.
Proof.
  intros Hc Hb. unfold th_where_fl, broadcast_all. rewrite Hc, Hb.
  rewrite broadcast_shapes_nil_r, !broadcast_shapes_same.
  eexists; split; reflexivity.
Qed.


Lemma approx_cdf_fl_ok (x : Tensor fl) :
  exists r, approx_standard_normal_cdf_fl x = Ok r /\ shape r = shape x.
Proof.
  unfold approx_standard_normal_cdf_fl.
  destruct (map2_same_shape fl_add x
              (tmap (fl_mul (Fin 0.044715)) (tmap (fun v => fl_pow v 3) x))
              eq_refl) as [inner [Hin Hs]].
  rewrite Hin. cbn [bind]. eexists; split; [reflexivity | exact Hs].
Qed.


Ltac same_shape_step_fl :=
  match goal with
  | |- context [bind (map2 ?f ?a ?b) _] =>
      let c := fresh "t" in
      let E := fresh "E" in
      let S := fresh "S" in
      destruct (map2_same_shape f a b) as [c [E S]];
      [ cbn [shape tmap] in *; congruence
      | rewrite E; cbn [bind]; cbn [shape tmap] in S ]
  | |- context [bind (approx_standard_normal_cdf_fl ?a) _] =>
      let c := fresh "t" in
      let E := fresh "E" in
      let S := fresh "S" in
      destruct (approx_cdf_fl_ok a) as [c [E S]];
      rewrite E; cbn [bind]; cbn [shape tmap] in S
  | |- context [bind (th_where_fl ?c ?a ?b) _] =>
      let r := fresh "t" in
      let E := fresh "E" in
      let S := fresh "S" in
      destruct (th_where_fl_same_shape c a b) as [r [E S]];
      [ cbn [shape tmap] in *; congruence
      | cbn [shape tmap] in *; congruence
      | rewrite E; cbn [bind]; cbn [shape tmap] in S ]
  end.



(** What [normal_kl_fl] returns, element by element. *)
Lemma normal_kl_fl_reads (mean1 logvar1 mean2 logvar2 r : Tensor fl) :
  normal_kl_fl mean1 logvar1 mean2 logvar2 = Ok r ->
  forall j, in_range (shape r) j = true ->
    get r j
    = fl_mul (Fin 0.5)
        (fl_add
           (fl_add
              (fl_sub (fl_add (Fin (-1)) (bget logvar2 j)) (bget logvar1 j))
              (fl_exp (fl_sub (bget logvar1 j) (bget logvar2 j))))
           (fl_mul (fl_pow (fl_sub (bget mean1 j) (bget mean2 j)) 2)
              (fl_exp (fl_neg (bget logvar2 j))))).
Proof.
  unfold normal_kl_fl. intros Hk.
  apply bind_inv in Hk. destruct Hk as [t1 [H1 Hk]].
  apply bind_inv in Hk. destruct Hk as [d [Hd Hk]].
  apply bind_inv in Hk. destruct Hk as [t2 [H2 Hk]].
  apply bind_inv in Hk. destruct Hk as [dm [Hdm Hk]].
  apply bind_inv in Hk. destruct Hk as [t3 [H3 Hk]].
  apply bind_inv in Hk. destruct Hk as [t4 [H4 Hk]].
  injection Hk as <-.
  pose proof (fits_refl (shape (tmap (fl_mul (Fin 0.5)) t4))) as Hs.
  set (u := shape (tmap (fl_mul (Fin 0.5)) t4)) in Hs at 2 |- *.
  reads_down.
  intros j Hr. rewrite <- bget_get by exact Hr.
  reads_at j Hr. reflexivity.
Qed.

Lemma normal_kl_fl_ok (mean1 logvar1 mean2 logvar2 : Tensor fl) :
  shape logvar1 = shape mean1 -> shape mean2 = shape mean1 ->
  shape logvar2 = shape mean1 ->
  exists r, normal_kl_fl mean1 logvar1 mean2 logvar2 = Ok r /\
            shape r = shape mean1.
Proof.
  intros Hl1 Hm2 Hl2. unfold normal_kl_fl.
  repeat same_shape_step_fl.
  eexists. split; [reflexivity|]. cbn [shape tmap]. congruence.
Qed.

End FloatRange.

Import FloatRange.




(** C7 as first stated fails within the range of the floats:
    [normal_kl(m, lv, m, lv)] with [m = 0] and [lv = -1000] is NaN
    ([exp(1000)] overflows and is multiplied by the zero [(m - m)^2]),
    neither 0 nor non-negative. *)
Lemma normal_kl_zero_and_nonneg_counterexample :
  exists r,
    normal_kl_fl (fl_one (Fin 0)) (fl_one (Fin (-1000)))
      (fl_one (Fin 0)) (fl_one (Fin (-1000))) = Ok r /\
    get r [0%nat] <> Fin 0 /\
    ~ fl_le (Fin 0) (get r [0%nat]).
Proof.
  destruct (normal_kl_fl_ok (fl_one (Fin 0)) (fl_one (Fin (-1000)))
              (fl_one (Fin 0)) (fl_one (Fin (-1000)))
              eq_refl eq_refl eq_refl) as [r [Hk Hs]].
  exists r. split; [exact Hk|].
  pose proof (normal_kl_fl_reads _ _ _ _ _ Hk) as Hval.
  rewrite Hs in Hval. specialize (Hval [0%nat] eq_refl).
  change (bget (fl_one (Fin 0)) [0%nat]) with (Fin 0) in Hval.
  change (bget (fl_one (Fin (-1000))) [0%nat]) with (Fin (-1000)) in Hval.
  rewrite fl_exp_overflow in Hval.
  assert (Hsq : fl_pow (fl_sub (Fin 0) (Fin 0)) 2 = Fin ((0 + - 0) ^ 2)).
  { cbn [fl_sub fl_neg fl_add]. rewrite (rnd_small (0 + - 0)) by lra.
    cbn [fl_pow]. apply rnd_small.
    replace ((0 + - 0) ^ 2) with 0 by ring. lra. }
  rewrite Hsq in Hval. cbn [fl_mul] in Hval.
  rewrite (fl_mul_inf_zero true ((0 + - 0) ^ 2)) in Hval by ring.
  rewrite fl_add_nan_r in Hval. cbn [fl_mul] in Hval.
  rewrite Hval. split; [discriminate | apply fl_le_nan_r].
Qed.
